(** * Ambari configuration audit: the diff engine, the renderer, the
      version sorter and the two fetch loops of [audit.py]

    A shallow embedding of class [AmbariAudit].  Python dictionaries
    that are used as maps (a snapshot's [properties], [prev_config],
    the version descriptors, the event dictionaries handed to the
    renderer) are finite maps with string keys; iterating over such a
    dictionary ([iteritems]) is [map_to_list].  The instance
    attributes the methods read and write are the fields of the record
    [AmbariAudit], threaded explicitly.  A raised exception is the
    [Raise] branch of [result].

    The code is Python 2.  A string is the text [r.json()] decodes
    to, a [unicode] object; a byte string is written as the text of
    the same ASCII characters, and a character above 127 stands for a
    non-ASCII character of a [unicode] object. *)

From Stdlib Require Import ZArith String Ascii List Sorting.Sorted.
From Stdlib Require Import Numbers.DecimalString.
From stdpp Require Import base option list gmap strings fin_maps sorting.

Local Open Scope string_scope.
Local Open Scope Z_scope.
Local Open Scope list_scope.

(** ** Values and exceptions *)

(** The JSON scalars the cluster manager returns inside descriptors,
    snapshots and therefore events: integers (version numbers) and
    strings (everything else). *)
Inductive scalar : Type :=
  | SInt (z : Z)
  | SStr (s : string).

#[global] Instance scalar_eq_dec : EqDecision scalar.
Proof. solve_decision. Defined.

(** The exceptions the modelled methods can raise. *)
Inductive pyerr : Type :=
  | KeyError (k : string)
  | IndexError
  | ValueError
  | TypeError
  | ConnectionError
  | UnicodeEncodeError
  | IOError.

Inductive result (A : Type) : Type :=
  | Ok (a : A)
  | Raise (e : pyerr).
Arguments Ok {A} a.
Arguments Raise {A} e.

(** Sequencing: the first exception raised ends the computation. *)
#[global] Instance result_bind : MBind result := λ A B f m,
  match m with
  | Ok a => f a
  | Raise e => Raise e
  end.
#[global] Instance result_ret : MRet result := λ A a, Ok a.

(** [d[k]] on a dictionary: the value, or [KeyError]. *)
Definition getitem {V : Type} (d : gmap string V) (k : string) : result V :=
  match d !! k with
  | Some v => Ok v
  | None => Raise (KeyError k)
  end.

(** [str(v)], which is what [str.format] substitutes for a field with
    an empty format specification. *)
Definition str (v : scalar) : string :=
  match v with
  | SInt z => NilZero.string_of_int (Z.to_int z)
  | SStr s => s
  end.

(** ** The renderer, [_get_audit_log_string] *)

(** The argument of the renderer: [None] or a dictionary. *)
Inductive pyarg : Type :=
  | PyNone
  | PyDict (d : gmap string scalar).

(** Python truthiness: [None] and the empty dictionary are falsy. *)
Definition truthy (text : pyarg) : bool :=
  match text with
  | PyNone => false
  | PyDict d => bool_decide (d ≠ ∅)
  end.

(** [text[k]]; subscripting [None] is a [TypeError]. *)
Definition subscript (text : pyarg) (k : string) : result scalar :=
  match text with
  | PyNone => Raise TypeError
  | PyDict d => getitem d k
  end.

(** Whether a text has ASCII characters only, and whether a value
    can be put into a byte string: a number always, a text when it
    encodes with the default codec, which is ASCII. *)
Definition is_ascii (s : string) : bool :=
  forallb (λ c, (nat_of_ascii c <? 128)%nat) (list_ascii_of_string s).

Definition encodable (v : scalar) : bool :=
  match v with
  | SInt _ => true
  | SStr s => is_ascii s
  end.

(** One replacement field of [str.format] on a byte-string template:
    the value's [str], unless it is a text that does not encode. *)
Definition format_field (v : scalar) : result string :=
  if encodable v then Ok (str v) else Raise UnicodeEncodeError.

(** The keyword arguments are evaluated first, in the order they are
    written; the fields are then formatted in the order of the
    template. *)
Definition _get_audit_log_string (text : pyarg) : result string :=
  if negb (truthy text) then Ok ""%string
  else
    action ← subscript text "action";
    if bool_decide (action ≠ SStr "CHANGED") then
      type ← subscript text "type";
      action ← subscript text "action";
      version ← subscript text "version";
      key ← subscript text "key";
      value ← subscript text "value";
      type ← format_field type;
      version ← format_field version;
      action ← format_field action;
      key ← format_field key;
      value ← format_field value;
      Ok (type +:+ ": version " +:+ version +:+ " - " +:+ action
          +:+ " - " +:+ key +:+ " - " +:+ value)%string
    else
      type ← subscript text "type";
      action ← subscript text "action";
      version ← subscript text "version";
      key ← subscript text "key";
      value ← subscript text "value";
      old_value ← subscript text "old_value";
      type ← format_field type;
      version ← format_field version;
      action ← format_field action;
      key ← format_field key;
      old_value ← format_field old_value;
      value ← format_field value;
      Ok (type +:+ ": version " +:+ version +:+ " - " +:+ action
          +:+ " - " +:+ key +:+ " - " +:+ old_value +:+ " => "
          +:+ value)%string.

(** ** Snapshots, responses and the object state *)

(** One configuration revision as the diff engine reads it:
    [conf['version']] and [conf['properties']].  An item that lacks
    one of the two, at which the engine raises [KeyError], is not a
    value of this type: what is stated of the engine is stated of
    items that have both. *)
Record ConfigSnapshot : Type := {
  version : scalar;
  properties : gmap string scalar;
}.

(** The decoded body of a response, [r.json()]: not JSON at all, or an
    object that may carry an ['items'] list. *)
Inductive json_body (A : Type) : Type :=
  | Malformed
  | Object (items : option (list A)).
Arguments Malformed {A}.
Arguments Object {A} items.

Record response (A : Type) : Type := {
  status_code : Z;
  body : json_body A;
}.
Arguments status_code {A} r.
Arguments body {A} r.

(** One call [session.get(url, verify=False, params=...)]: its URL
    and its query parameters, none when the call gives none.
    [verify=False] is the same in every call and is left out. *)
Inductive request : Type :=
  | GET (url : string) (params : list (string * string)).

(** The world around the object.  What [session.get] yields: for the
    version listing, by the query parameters sent with it, and for the
    GET of each version's href; a request that gets no response
    raises.  And what [open(name, 'w')] does: it opens the file or
    raises. *)
Record Session : Type := {
  list_response : list (string * string) → result (response (gmap string scalar));
  config_response : string → result (response ConfigSnapshot);
  open_w : string → result unit;
}.

(** The attributes of [self] the methods use, together with the
    observable effects: the requests made so far, the lines printed,
    and the lines of each file written. *)
Record AmbariAudit : Type := {
  cluster_url : string;
  session : Session;
  config_id : string;
  config_versions : list (gmap string scalar);
  sort_version_by : string;
  configs : list ConfigSnapshot;
  audit_log : list (gmap string scalar);
  requested : list request;
  stdout : list string;
  files : gmap string (list string);
}.

Definition set_config_versions (vs : list (gmap string scalar)) (self : AmbariAudit)
    : AmbariAudit :=
  {| cluster_url := cluster_url self; session := session self;
     config_id := config_id self; config_versions := vs;
     sort_version_by := sort_version_by self; configs := configs self;
     audit_log := audit_log self; requested := requested self;
     stdout := stdout self; files := files self |}.

Definition set_configs (cs : list ConfigSnapshot) (self : AmbariAudit)
    : AmbariAudit :=
  {| cluster_url := cluster_url self; session := session self;
     config_id := config_id self; config_versions := config_versions self;
     sort_version_by := sort_version_by self; configs := cs;
     audit_log := audit_log self; requested := requested self;
     stdout := stdout self; files := files self |}.

Definition set_audit_log (log : list (gmap string scalar)) (self : AmbariAudit)
    : AmbariAudit :=
  {| cluster_url := cluster_url self; session := session self;
     config_id := config_id self; config_versions := config_versions self;
     sort_version_by := sort_version_by self; configs := configs self;
     audit_log := log; requested := requested self; stdout := stdout self;
     files := files self |}.

Definition set_requested (urls : list request) (self : AmbariAudit) : AmbariAudit :=
  {| cluster_url := cluster_url self; session := session self;
     config_id := config_id self; config_versions := config_versions self;
     sort_version_by := sort_version_by self; configs := configs self;
     audit_log := audit_log self; requested := urls; stdout := stdout self;
     files := files self |}.

Definition set_stdout (out : list string) (self : AmbariAudit) : AmbariAudit :=
  {| cluster_url := cluster_url self; session := session self;
     config_id := config_id self; config_versions := config_versions self;
     sort_version_by := sort_version_by self; configs := configs self;
     audit_log := audit_log self; requested := requested self; stdout := out;
     files := files self |}.

Definition set_files (fs : gmap string (list string)) (self : AmbariAudit)
    : AmbariAudit :=
  {| cluster_url := cluster_url self; session := session self;
     config_id := config_id self; config_versions := config_versions self;
     sort_version_by := sort_version_by self; configs := configs self;
     audit_log := audit_log self; requested := requested self;
     stdout := stdout self; files := fs |}.

(** [__init__]: the lists start empty and versions are sorted by
    ['version']. *)
Definition init (url : string) (srv : Session) (config : string) : AmbariAudit :=
  {| cluster_url := url; session := srv; config_id := config;
     config_versions := []; sort_version_by := "version"; configs := [];
     audit_log := []; requested := []; stdout := []; files := ∅ |}.

(** ** The diff engine, [_config_diff] *)

(** The three dictionaries the engine appends to [audit]. *)
Definition ADDED (version : scalar) (config_id key : string) (val : scalar)
    : gmap string scalar :=
  {[ "version" := version; "type" := SStr config_id; "action" := SStr "ADDED";
     "key" := SStr key; "value" := val ]}.

Definition CHANGED (version : scalar) (config_id key : string) (val old : scalar)
    : gmap string scalar :=
  {[ "version" := version; "type" := SStr config_id; "action" := SStr "CHANGED";
     "key" := SStr key; "value" := val; "old_value" := old ]}.

Definition REMOVED (version : scalar) (config_id key : string) (pval : scalar)
    : gmap string scalar :=
  {[ "version" := version; "type" := SStr config_id; "action" := SStr "REMOVED";
     "key" := SStr key; "value" := pval ]}.

(** The body of the first inner loop, for one [(key, val)]. *)
Definition traverse_property (version : scalar) (config_id : string)
    (prev_config : gmap string scalar)
    (audit : list (gmap string scalar)) (kv : string * scalar)
    : list (gmap string scalar) :=
  let '(key, val) := kv in
  match prev_config !! key with
  | None => audit ++ [ADDED version config_id key val]
  | Some old =>
      if bool_decide (old ≠ val)
      then audit ++ [CHANGED version config_id key val old]
      else audit
  end.

(** The body of the second inner loop, for one [(pkey, pval)]. *)
Definition check_removal (version : scalar) (config_id : string)
    (conf_properties : gmap string scalar)
    (audit : list (gmap string scalar)) (kv : string * scalar)
    : list (gmap string scalar) :=
  let '(pkey, pval) := kv in
  if bool_decide (conf_properties !! pkey = None)
  then audit ++ [REMOVED version config_id pkey pval]
  else audit.

(** The body of the outer loop: the loop state is [(audit, prev_config)]. *)
Definition traverse_config (config_id : string)
    (st : list (gmap string scalar) * gmap string scalar) (conf : ConfigSnapshot)
    : list (gmap string scalar) * gmap string scalar :=
  let '(audit, prev_config) := st in
  let audit := foldl (traverse_property (version conf) config_id prev_config)
                 audit (map_to_list (properties conf)) in
  let audit := foldl (check_removal (version conf) config_id (properties conf))
                 audit (map_to_list prev_config) in
  (audit, properties conf).

Definition _config_diff (self : AmbariAudit) : AmbariAudit :=
  let '(audit, _) := foldl (traverse_config (config_id self)) ([], ∅) (configs self) in
  set_audit_log audit self.

(** ** The version sorter: [sorted(items, key=...)] *)

(** Python 2's [<] on the scalars: numbers by value, strings
    lexicographically, and every number below every string. *)
Definition scalar_ltb (a b : scalar) : bool :=
  match a, b with
  | SInt x, SInt y => (x <? y)%Z
  | SInt _, SStr _ => true
  | SStr _, SInt _ => false
  | SStr s, SStr t => String.ltb s t
  end.

(** One decorated item is put in front of the first item that is not
    smaller than it. *)
Fixpoint insert_keyed {A : Type} (x : scalar * A) (l : list (scalar * A))
    : list (scalar * A) :=
  match l with
  | [] => [x]
  | y :: l' => if scalar_ltb y.1 x.1 then y :: insert_keyed x l' else x :: y :: l'
  end.

(** The builtin [sorted] with a [key] function: every key is computed
    first, front to back, then the decorated list is sorted on the
    keys by [<] alone and the keys are dropped. *)
Definition sorted {A : Type} (key : A → result scalar) (l : list A) : result (list A) :=
  keyed ← mapM (λ item, k ← key item; Ok (k, item)) l;
  Ok (snd <$> foldr insert_keyed [] keyed).

(** The sorter of [_retrieve_config_versions]: the key of an item is
    [item[sort_version_by]]. *)
Definition version_sorter (sort_version_by : string)
    (items : list (gmap string scalar)) : result (list (gmap string scalar)) :=
  sorted (λ item, getitem item sort_version_by) items.

(** ** Methods that raise and change [self] *)

(** A method body: it starts from a state of the object and ends with
    a value or an exception, and the state reached. *)
Definition M (A : Type) : Type := AmbariAudit → result A * AmbariAudit.

#[global] Instance M_bind : MBind M := λ A B f m self,
  match m self with
  | (Ok a, self') => f a self'
  | (Raise e, self') => (Raise e, self')
  end.
#[global] Instance M_ret : MRet M := λ A a self, (Ok a, self).

Definition get_self : M AmbariAudit := λ self, (Ok self, self).
Definition modify (f : AmbariAudit → AmbariAudit) : M unit := λ self, (Ok (), f self).
Definition lift {A : Type} (r : result A) : M A := λ self, (r, self).

(** [for x in l: body(x)] *)
Fixpoint for_each {A : Type} (l : list A) (body : A → M unit) : M unit :=
  match l with
  | [] => mret ()
  | x :: l' => _ ← body x; for_each l' body
  end.

(** [self.session.get(url, params=params)]: the request is issued,
    then the answer (or the failure) comes back. *)
Definition session_get {A : Type} (url : string) (params : list (string * string))
    (answer : result (response A)) : M (response A) :=
  _ ← modify (λ self, set_requested (requested self ++ [GET url params]) self);
  lift answer.

(** [r.json()] *)
Definition json {A : Type} (r : response A) : result (option (list A)) :=
  match body r with
  | Malformed => Raise ValueError
  | Object items => Ok items
  end.

Definition _retrieve_config_versions : M unit :=
  self ← get_self;
  r ← session_get (cluster_url self +:+ "/configurations")
        [("type", config_id self)]
        (list_response (session self) [("type", config_id self)]);
  res ← lift (json r);
  match res with
  | Some (item :: items) =>
      vs ← lift (version_sorter (sort_version_by self) (item :: items));
      modify (set_config_versions vs)
  | _ => mret ()
  end.

(** The body of the loop of [_retrieve_configs]. *)
Definition retrieve_config (cversion : gmap string scalar) : M unit :=
  href ← lift (getitem cversion "href");
  self ← get_self;
  r ← session_get (str href) [] (config_response (session self) (str href));
  if bool_decide (status_code r ≠ 200) then mret ()
  else
    res ← lift (json r);
    items ← lift (match res with
                  | Some items => Ok items
                  | None => Raise (KeyError "items")
                  end);
    conf ← lift (match items with
                 | conf :: _ => Ok conf
                 | [] => Raise IndexError
                 end);
    modify (λ self, set_configs (configs self ++ [conf]) self).

Definition _retrieve_configs : M unit :=
  self ← get_self;
  for_each (config_versions self) retrieve_config.

(** [fout.write(s + '\n')] on the file opened as [fnout], and
    [print(s)]: a line more in the file, or on the standard output. *)
Definition write_line (fnout s : string) : M unit :=
  modify (λ self,
    set_files (<[fnout := default [] (files self !! fnout) ++ [s]]> (files self)) self).

Definition print_line (s : string) : M unit :=
  modify (λ self, set_stdout (stdout self ++ [s]) self).

(** [open(fnout, 'w')]: when the file opens, what it held is gone. *)
Definition open_file (fnout : string) : M unit :=
  self ← get_self;
  _ ← lift (open_w (session self) fnout);
  modify (λ self, set_files (<[fnout := []]> (files self)) self).

Definition _finalize (fnout : string) : M unit :=
  self ← get_self;
  if bool_decide (fnout ≠ "") then
    _ ← open_file fnout;
    for_each (audit_log self) (λ line,
      s ← lift (_get_audit_log_string (PyDict line)); write_line fnout s)
  else
    for_each (audit_log self) (λ line,
      s ← lift (_get_audit_log_string (PyDict line)); print_line s).

Definition execute (fnout : string) : M unit :=
  _ ← _retrieve_config_versions;
  _ ← _retrieve_configs;
  _ ← modify _config_diff;
  _finalize fnout.

(** ** The engine and the renderer, spelled out for the statements *)

(** The event, if any, that one property of the snapshot gives rise
    to against the previous mapping. *)
Definition property_event (version : scalar) (config_id : string)
    (prev_config : gmap string scalar) (kv : string * scalar)
    : option (gmap string scalar) :=
  match prev_config !! kv.1 with
  | None => Some (ADDED version config_id kv.1 kv.2)
  | Some old =>
      if bool_decide (old ≠ kv.2)
      then Some (CHANGED version config_id kv.1 kv.2 old)
      else None
  end.

(** The event, if any, that one property of the previous mapping
    gives rise to against the snapshot. *)
Definition removal_event (version : scalar) (config_id : string)
    (conf_properties : gmap string scalar) (kv : string * scalar)
    : option (gmap string scalar) :=
  if bool_decide (conf_properties !! kv.1 = None)
  then Some (REMOVED version config_id kv.1 kv.2)
  else None.

Definition added_changed (config_id : string) (prev : gmap string scalar)
    (conf : ConfigSnapshot) : list (gmap string scalar) :=
  omap (property_event (version conf) config_id prev) (map_to_list (properties conf)).

Definition removed (config_id : string) (prev : gmap string scalar)
    (conf : ConfigSnapshot) : list (gmap string scalar) :=
  omap (removal_event (version conf) config_id (properties conf)) (map_to_list prev).

(** The events of one snapshot, and of a sequence of snapshots
    starting from a given previous mapping. *)
Definition group (config_id : string) (prev : gmap string scalar)
    (conf : ConfigSnapshot) : list (gmap string scalar) :=
  added_changed config_id prev conf ++ removed config_id prev conf.

Fixpoint groups (config_id : string) (prev : gmap string scalar)
    (cs : list ConfigSnapshot) : list (list (gmap string scalar)) :=
  match cs with
  | [] => []
  | conf :: cs' => group config_id prev conf :: groups config_id (properties conf) cs'
  end.

(** The mapping the [i]-th snapshot is compared with: empty for the
    first one, the mapping of the snapshot before it otherwise. *)
Definition previous (cs : list ConfigSnapshot) (i : nat) : gmap string scalar :=
  match i with
  | O => ∅
  | S j => default ∅ (properties <$> cs !! j)
  end.

(** What the specification asks one snapshot to emit against
    [prev]. *)
Definition emitted (config_id : string) (prev : gmap string scalar)
    (conf : ConfigSnapshot) (e : gmap string scalar) : Prop :=
  (∃ key val, properties conf !! key = Some val ∧ prev !! key = None ∧
              e = ADDED (version conf) config_id key val) ∨
  (∃ key val old, properties conf !! key = Some val ∧ prev !! key = Some old ∧
                  old ≠ val ∧ e = CHANGED (version conf) config_id key val old) ∨
  (∃ key old, prev !! key = Some old ∧ properties conf !! key = None ∧
              e = REMOVED (version conf) config_id key old).

(** Ascending order on decorated items: the second key is not smaller
    than the first. *)
Definition keyed_le {A : Type} (x y : scalar * A) : Prop :=
  scalar_ltb y.1 x.1 = false.

(** Ascending order on the sort key: the second item's key is not
    smaller than the first one's. *)
Definition key_le (sort_version_by : string) (x y : gmap string scalar) : Prop :=
  match x !! sort_version_by, y !! sort_version_by with
  | Some a, Some b => scalar_ltb b a = false
  | _, _ => False
  end.

(** A decorated item is paired with its own key. *)
Definition decorated (sort_version_by : string)
    (p : scalar * gmap string scalar) : Prop :=
  p.2 !! sort_version_by = Some p.1.

(** A snapshot whose version, keys and values can all be put into a
    byte string. *)
Definition encodable_snapshot (conf : ConfigSnapshot) : Prop :=
  encodable (version conf) = true ∧
  map_Forall (λ key val, is_ascii key = true ∧ encodable val = true) (properties conf).

(** The request of the version listing. *)
Definition listing_request (self : AmbariAudit) : request :=
  GET (cluster_url self +:+ "/configurations") [("type", config_id self)].

(** The request made for a version, the snapshot a version yields
    when its fetch succeeds (status 200 and a first item), and the
    versions whose fetch either succeeds or is skipped. *)
Definition href_of (cversion : gmap string scalar) : option request :=
  (λ href, GET (str href) []) <$> cversion !! "href".

Definition fetched (srv : Session) (cversion : gmap string scalar)
    : option ConfigSnapshot :=
  match cversion !! "href" with
  | Some href =>
      match config_response srv (str href) with
      | Ok r =>
          if bool_decide (status_code r = 200) then
            match body r with
            | Object (Some (conf :: _)) => Some conf
            | _ => None
            end
          else None
      | Raise _ => None
      end
  | None => None
  end.

Definition fetchable (srv : Session) (cversion : gmap string scalar) : Prop :=
  ∃ href r, cversion !! "href" = Some href ∧
            config_response srv (str href) = Ok r ∧
            (status_code r = 200 → ∃ conf rest, body r = Object (Some (conf :: rest))).

(** The two templates of the renderer. *)
Definition template (type version action key value : scalar) : string :=
  (str type +:+ ": version " +:+ str version +:+ " - " +:+ str action
   +:+ " - " +:+ str key +:+ " - " +:+ str value)%string.

Definition template_changed (type version action key old_value value : scalar)
    : string :=
  (str type +:+ ": version " +:+ str version +:+ " - " +:+ str action
   +:+ " - " +:+ str key +:+ " - " +:+ str old_value +:+ " => " +:+ str value)%string.

(** ** Reading a log back *)

(** What an event says happened to the mapping: an ADDED or CHANGED
    event sets its key to its value, a REMOVED event drops its key.
    A dictionary without these fields says nothing. *)
Definition apply_event (m e : gmap string scalar) : gmap string scalar :=
  match e !! "key", e !! "action", e !! "value" with
  | Some (SStr key), Some action, Some value =>
      if bool_decide (action = SStr "REMOVED") then delete key m
      else <[key := value]> m
  | _, _, _ => m
  end.

Definition replay (m : gmap string scalar) (log : list (gmap string scalar))
    : gmap string scalar :=
  foldl apply_event m log.

(** ** Concrete inputs *)

(** A snapshot with an integer version and string values. *)
Definition snap (v : Z) (l : list (string * string)) : ConfigSnapshot :=
  {| version := SInt v; properties := list_to_map (prod_map id SStr <$> l) |}.

(** Two snapshots: [a] changes, [b] goes away and [c] comes in. *)
Definition demo : AmbariAudit :=
  set_configs [snap 1 [("a","1");("b","2")]; snap 2 [("a","5");("c","3")]]
    (init "http://h/api/v1/clusters/c"
       {| list_response := λ _, Ok {| status_code := 200; body := Object None |};
          config_response := λ _, Ok {| status_code := 404; body := Malformed |};
          open_w := λ _, Ok () |}
       "hdfs-site").

(** One snapshot, [{a: 1}], at version 1. *)
Definition one_snapshot : AmbariAudit :=
  set_configs [snap 1 [("a","1")]] demo.

(** An event left in the log by an earlier run. *)
Definition stale_event : gmap string scalar :=
  ADDED (SInt 12) "hdfs-site" "dfs.replication" (SStr "3").

(** The key [a] keeps its value while [b] changes. *)
Definition constant_key : AmbariAudit :=
  set_configs [snap 1 [("a","1");("b","2")]; snap 2 [("a","1");("b","3")]] demo.

(** A property is added and none changes or goes away. *)
Definition growing : AmbariAudit :=
  set_configs [snap 1 [("a","1")]; snap 2 [("b","2");("a","1")]] demo.

(** A version descriptor, and a server that lists three versions out
    of order and fails to deliver the second one. *)
Definition desc (v : Z) (h : string) : gmap string scalar :=
  {[ "version" := SInt v; "href" := SStr h; "tag" := SStr "t" ]}.

Definition srv : Session :=
  {| list_response := λ _,
       Ok {| status_code := 200;
             body := Object (Some [desc 3 "u3"; desc 1 "u1"; desc 2 "u2"]) |};
     open_w := λ _, Ok ();
     config_response := λ u,
       if bool_decide (u = "u1") then
         Ok {| status_code := 200;
               body := Object (Some [snap 1 [("a","1");("b","2")]]) |}
       else if bool_decide (u = "u2") then
         Ok {| status_code := 500; body := Malformed |}
       else
         Ok {| status_code := 200;
               body := Object (Some [snap 3 [("a","5");("c","3")]]) |} |}.

(** The listing answered with 404 and a JSON body without items. *)
Definition not_found : AmbariAudit :=
  init "http://h/api/v1/clusters/c"
    {| list_response := λ _, Ok {| status_code := 404; body := Object None |};
       config_response := λ _, Ok {| status_code := 404; body := Malformed |};
       open_w := λ _, Ok () |}
    "hdfs-site".

(** The listing answered with 502 and a body that is not JSON. *)
Definition bad_gateway : AmbariAudit :=
  init "http://h/api/v1/clusters/c"
    {| list_response := λ _, Ok {| status_code := 502; body := Malformed |};
       config_response := λ _, Ok {| status_code := 404; body := Malformed |};
       open_w := λ _, Ok () |}
    "hdfs-site".

(** Three sorted versions, the second of which answers with 500. *)
Definition listed : AmbariAudit :=
  set_config_versions [desc 1 "u1"; desc 2 "u2"; desc 3 "u3"]
    (init "http://h" srv "hdfs-site").


(** ** Construction: the URLs of [__init__] *)

(** [sep.join(parts)] *)
Definition join (sep : string) (parts : list string) : string :=
  String.concat sep parts.

Definition make_cluster_url (use_https : bool) (host cluster_name : string) : string :=
  if use_https
  then join "/" ["https:/"; host +:+ ""; "api"; "v1"; "clusters"; cluster_name]
  else join "/" ["http:/"; host +:+ ""; "api"; "v1"; "clusters"; cluster_name].

Definition make_api_url (use_https : bool) (host : string) : string :=
  if use_https
  then join "/" ["https:/"; host +:+ ""; "api"; "v1"]
  else join "/" ["http:/"; host +:+ ""; "api"; "v1"].

(** The object [AmbariAudit(host, cluster_name, user, pw, use_https,
    config)] talking to the server [srv]. *)
Definition __init__ (host cluster_name user pw : string) (use_https : bool)
    (config : string) (srv : Session) : AmbariAudit :=
  init (make_cluster_url use_https host cluster_name) srv config.

(** ** The command line: [getopt.getopt] and [main] *)

(** The outcome of the option parser: its value, or [GetoptError]
    with its message. *)
Inductive parsed (A : Type) : Type :=
  | Parsed (a : A)
  | GetoptError (msg : string).
Arguments Parsed {A} a.
Arguments GetoptError {A} msg.

(** [short_has_arg]: the first occurrence of the letter in
    [shortopts] decides, by the colon after it. *)
Fixpoint short_has_arg (opt : ascii) (shortopts : string) : parsed bool :=
  match shortopts with
  | EmptyString => GetoptError ("option -" +:+ String opt "" +:+ " not recognized")
  | String c rest =>
      if Ascii.eqb opt c && negb (Ascii.eqb c ":")
      then Parsed (String.prefix ":" rest)
      else short_has_arg opt rest
  end.

(** [do_shorts] on the letters of one argument: the options it adds,
    and whether the next argument was taken as an option's value. *)
Fixpoint do_shorts (optstring shortopts : string) (args : list string)
    : parsed (list (string * string) * bool) :=
  match optstring with
  | EmptyString => Parsed ([], false)
  | String opt optstring' =>
      match short_has_arg opt shortopts with
      | GetoptError msg => GetoptError msg
      | Parsed true =>
          if String.eqb optstring' "" then
            match args with
            | [] => GetoptError ("option -" +:+ String opt "" +:+ " requires argument")
            | optarg :: _ => Parsed ([("-" +:+ String opt "", optarg)], true)
            end
          else Parsed ([("-" +:+ String opt "", optstring')], false)
      | Parsed false =>
          match do_shorts optstring' shortopts args with
          | GetoptError msg => GetoptError msg
          | Parsed (opts, taken) => Parsed (("-" +:+ String opt "", "") :: opts, taken)
          end
      end
  end.

(** [opt.index('=')] and the two slices around it. *)
Fixpoint split_equals (s : string) : option (string * string) :=
  match s with
  | EmptyString => None
  | String c rest =>
      if Ascii.eqb c "=" then Some ("", rest)
      else match split_equals rest with
           | Some (a, b) => Some (String c a, b)
           | None => None
           end
  end.

(** [s[:-1]] when [s.endswith('=')]. *)
Fixpoint strip_equals (s : string) : option string :=
  match s with
  | EmptyString => None
  | String c EmptyString => if Ascii.eqb c "=" then Some "" else None
  | String c rest => String c <$> strip_equals rest
  end.

Definition long_has_args (opt : string) (longopts : list string)
    : parsed (bool * string) :=
  let possibilities := List.filter (String.prefix opt) longopts in
  match possibilities with
  | [] => GetoptError ("option --" +:+ opt +:+ " not recognized")
  | _ =>
      if existsb (String.eqb opt) possibilities then Parsed (false, opt)
      else if existsb (String.eqb (opt +:+ "=")) possibilities then Parsed (true, opt)
      else match possibilities with
           | [unique_match] =>
               match strip_equals unique_match with
               | Some name => Parsed (true, name)
               | None => Parsed (false, unique_match)
               end
           | _ => GetoptError ("option --" +:+ opt +:+ " not a unique prefix")
           end
  end.

(** [do_longs] on one argument without its two dashes: the option it
    adds, and whether the next argument was taken as its value. *)
Definition do_longs (opt : string) (longopts : list string) (args : list string)
    : parsed (list (string * string) * bool) :=
  let '(opt, optarg) := match split_equals opt with
                        | Some (name, value) => (name, Some value)
                        | None => (opt, None)
                        end in
  match long_has_args opt longopts with
  | GetoptError msg => GetoptError msg
  | Parsed (true, opt) =>
      match optarg, args with
      | Some value, _ => Parsed ([("--" +:+ opt, value)], false)
      | None, [] => GetoptError ("option --" +:+ opt +:+ " requires argument")
      | None, value :: _ => Parsed ([("--" +:+ opt, value)], true)
      end
  | Parsed (false, opt) =>
      match optarg with
      | Some _ => GetoptError ("option --" +:+ opt +:+ " must not have an argument")
      | None => Parsed ([("--" +:+ opt, "")], false)
      end
  end.

(** [getopt.getopt(args, shortopts, longopts)]: options are read
    until the first argument that is not one, or until [--]. *)
Fixpoint getopt_from (opts : list (string * string)) (args : list string)
    (shortopts : string) (longopts : list string)
    : parsed (list (string * string) * list string) :=
  match args with
  | [] => Parsed (opts, [])
  | arg :: rest =>
      if String.prefix "-" arg && negb (String.eqb arg "-") then
        if String.eqb arg "--" then Parsed (opts, rest)
        else
          match (if String.prefix "--" arg
                 then do_longs (String.substring 2 (String.length arg) arg) longopts rest
                 else do_shorts (String.substring 1 (String.length arg) arg) shortopts
                        rest) with
          | GetoptError msg => GetoptError msg
          | Parsed (new, taken) =>
              match rest with
              | _ :: rest' =>
                  if taken then getopt_from (opts ++ new) rest' shortopts longopts
                  else getopt_from (opts ++ new) rest shortopts longopts
              | [] => getopt_from (opts ++ new) rest shortopts longopts
              end
          end
      else Parsed (opts, arg :: rest)
  end.

Definition getopt (args : list string) (shortopts : string) (longopts : list string)
    : parsed (list (string * string) * list string) :=
  getopt_from [] args shortopts longopts.

(** The values [main] collects, and how it ends: with the tuple it
    returns or with [sys.exit]. *)
Record MainArgs : Type := {
  target : string;
  cluster : string;
  user : string;
  fnout : string;
  use_https : bool;
  config : string;
}.

Inductive ending : Type :=
  | Return (a : MainArgs)
  | SystemExit (code : Z).

(** What a call of [main] does: the lines it prints, the messages it
    logs as errors, and how it ends. *)
Record main_run : Type := {
  printed : list string;
  logged : list string;
  outcome : ending;
}.

Definition help_text : string :=
  "... --target <host+port> --cluster <clustername> --user <ambari_username> --output <filename> --https [True|False] --config <config-name>".

Definition is_one_of (opt : string) (names : list string) : bool :=
  existsb (String.eqb opt) names.

(** The loop over the parsed options: [None] when help was asked
    for. *)
Fixpoint get_all_arguments (opts : list (string * string)) (a : MainArgs)
    : option MainArgs :=
  match opts with
  | [] => Some a
  | (opt, arg) :: opts' =>
      if is_one_of opt ["-h"; "--help"] then None
      else if is_one_of opt ["-t"; "--target"] then
        get_all_arguments opts'
          {| target := arg; cluster := cluster a; user := user a; fnout := fnout a;
             use_https := use_https a; config := config a |}
      else if is_one_of opt ["-c"; "--cluster"] then
        get_all_arguments opts'
          {| target := target a; cluster := arg; user := user a; fnout := fnout a;
             use_https := use_https a; config := config a |}
      else if is_one_of opt ["-u"; "--user"] then
        get_all_arguments opts'
          {| target := target a; cluster := cluster a; user := arg; fnout := fnout a;
             use_https := use_https a; config := config a |}
      else if is_one_of opt ["-o"; "--output"] then
        get_all_arguments opts'
          {| target := target a; cluster := cluster a; user := user a; fnout := arg;
             use_https := use_https a; config := config a |}
      else if is_one_of opt ["-cfg"; "--config"] then
        get_all_arguments opts'
          {| target := target a; cluster := cluster a; user := user a; fnout := fnout a;
             use_https := use_https a; config := arg |}
      else if is_one_of opt ["-s"; "--https"] then
        get_all_arguments opts'
          {| target := target a; cluster := cluster a; user := user a; fnout := fnout a;
             use_https := String.eqb arg "True"; config := config a |}
      else get_all_arguments opts' a
  end.

Definition main (argv : list string) : main_run :=
  match getopt argv "ht:c:u:o:s:cfg:"
          ["help"; "target="; "cluster="; "user="; "output="; "https="; "config="] with
  | GetoptError msg =>
      {| printed := []; logged := [help_text; msg]; outcome := SystemExit 2 |}
  | Parsed (opts, _) =>
      match get_all_arguments opts
              {| target := ""; cluster := ""; user := ""; fnout := "";
                 use_https := false; config := "" |} with
      | None => {| printed := [help_text]; logged := []; outcome := SystemExit 0 |}
      | Some a =>
          if String.eqb (target a) "" || String.eqb (user a) ""
             || String.eqb (cluster a) "" || String.eqb (config a) ""
          then {| printed := [];
                  logged := [help_text;
                             "Not all required arguments supplied. Required: cluster, target, username and config"];
                  outcome := SystemExit 2 |}
          else {| printed := []; logged := []; outcome := Return a |}
      end
  end.

(** A parsed option with a one-letter name: a dash and the letter. *)
Definition short_name (p : string * string) : Prop := String.length p.1 = 2%nat.

(** ** More concrete inputs *)

(** The property [b] goes away and no value changes. *)
Definition shrinking : AmbariAudit :=
  set_configs [snap 1 [("a","1");("b","2")]; snap 2 [("a","1")]] demo.

(** A text with a character that is not ASCII. *)
Definition accented : string := String (ascii_of_nat 233) "t" +:+ "e".

(** One snapshot, and no file can be opened for writing. *)
Definition read_only : AmbariAudit :=
  set_configs [snap 1 [("a","1")]]
    (init "http://h/api/v1/clusters/c"
       {| list_response := λ _, Ok {| status_code := 200; body := Object None |};
          config_response := λ _, Ok {| status_code := 404; body := Malformed |};
          open_w := λ _, Raise IOError |}
       "hdfs-site").

(** The object after a whole run against [srv], to the standard
    output. *)
Definition fetched_run : AmbariAudit :=
  (execute "" (init "http://h" srv "hdfs-site")).2.


(** A server whose second version answers with status 200 and a body
    that is not JSON. *)
Definition srv_bad_body : Session :=
  {| list_response := λ _,
       Ok {| status_code := 200;
             body := Object (Some [desc 1 "u1"; desc 2 "u2"; desc 3 "u3"]) |};
     open_w := λ _, Ok ();
     config_response := λ u,
       if bool_decide (u = "u2") then Ok {| status_code := 200; body := Malformed |}
       else Ok {| status_code := 200;
                  body := Object (Some [snap 1 [("a","1");("b","2")]]) |} |}.

Definition listed_bad_body : AmbariAudit :=
  set_config_versions [desc 1 "u1"; desc 2 "u2"; desc 3 "u3"]
    (init "http://h" srv_bad_body "hdfs-site").

(** The second descriptor has no href. *)
Definition listed_no_href : AmbariAudit :=
  set_config_versions [desc 1 "u1"; {[ "version" := SInt 2 ]}; desc 3 "u3"]
    (init "http://h" srv "hdfs-site").

(** An event without a version. *)
Definition no_version_event : gmap string scalar :=
  {[ "action" := SStr "ADDED"; "type" := SStr "hdfs-site" ]}.

(** * The diff engine *)

Section diff_engine.
Implicit Types (prev : gmap string scalar) (conf : ConfigSnapshot).
Implicit Types (audit : list (gmap string scalar)) (e : gmap string scalar).
Implicit Types (cs : list ConfigSnapshot) (c key : string) (v val old : scalar).

(** ** The fields of the three kinds of event *)

Lemma ADDED_fields v c key val :
  ADDED v c key val !! "action" = Some (SStr "ADDED") ∧
  ADDED v c key val !! "key" = Some (SStr key) ∧
  ADDED v c key val !! "version" = Some v ∧
  ADDED v c key val !! "type" = Some (SStr c) ∧
  ADDED v c key val !! "value" = Some val ∧
  ADDED v c key val !! "old_value" = None.
Proof. by repeat split. Qed.

Lemma CHANGED_fields v c key val old :
  CHANGED v c key val old !! "action" = Some (SStr "CHANGED") ∧
  CHANGED v c key val old !! "key" = Some (SStr key) ∧
  CHANGED v c key val old !! "version" = Some v ∧
  CHANGED v c key val old !! "type" = Some (SStr c) ∧
  CHANGED v c key val old !! "value" = Some val ∧
  CHANGED v c key val old !! "old_value" = Some old.
Proof. by repeat split. Qed.

Lemma REMOVED_fields v c key val :
  REMOVED v c key val !! "action" = Some (SStr "REMOVED") ∧
  REMOVED v c key val !! "key" = Some (SStr key) ∧
  REMOVED v c key val !! "version" = Some v ∧
  REMOVED v c key val !! "type" = Some (SStr c) ∧
  REMOVED v c key val !! "value" = Some val ∧
  REMOVED v c key val !! "old_value" = None.
Proof. by repeat split. Qed.

(** ** The loops as list comprehensions *)

Lemma traverse_property_event v c prev audit kv :
  traverse_property v c prev audit kv
  = audit ++ option_list (property_event v c prev kv).
Proof.
  destruct kv as [key val]. unfold traverse_property, property_event. simpl.
  destruct (prev !! key) as [old|]; [|done].
  case_bool_decide; simpl; by rewrite ?app_nil_r.
Qed.

Lemma check_removal_event v c (props : gmap string scalar) audit kv :
  check_removal v c props audit kv
  = audit ++ option_list (removal_event v c props kv).
Proof.
  destruct kv as [key val]. unfold check_removal, removal_event. simpl.
  case_bool_decide; simpl; by rewrite ?app_nil_r.
Qed.

Lemma foldl_append_omap {A B : Type} (f : list B → A → list B) (g : A → option B) :
  (∀ acc x, f acc x = acc ++ option_list (g x)) →
  ∀ l acc, foldl f acc l = acc ++ omap g l.
Proof.
  intros Hf l. induction l as [|x l IH]; intros acc; simpl.
  - by rewrite app_nil_r.
  - rewrite IH, Hf, <- app_assoc. f_equal. by destruct (g x).
Qed.

Lemma traverse_config_group c audit prev conf :
  traverse_config c (audit, prev) conf = (audit ++ group c prev conf, properties conf).
Proof.
  unfold traverse_config, group, added_changed, removed.
  rewrite (foldl_append_omap _ _ (traverse_property_event _ _ _)).
  rewrite (foldl_append_omap _ _ (check_removal_event _ _ _)).
  by rewrite app_assoc.
Qed.

Lemma foldl_traverse_config c cs : ∀ audit prev,
  (foldl (traverse_config c) (audit, prev) cs).1 = audit ++ concat (groups c prev cs).
Proof.
  induction cs as [|conf cs IH]; intros audit prev; cbn [foldl groups concat].
  - by rewrite app_nil_r.
  - rewrite traverse_config_group, IH. by rewrite app_assoc.
Qed.

Lemma config_diff_groups self :
  audit_log (_config_diff self) = concat (groups (config_id self) ∅ (configs self)).
Proof.
  unfold _config_diff.
  pose proof (foldl_traverse_config (config_id self) (configs self) [] ∅) as H.
  destruct (foldl _ _ _) as [audit last]. simpl in H. by subst.
Qed.

Lemma groups_length c cs : ∀ prev, length (groups c prev cs) = length cs.
Proof. induction cs; intros; simpl; auto. Qed.

Lemma groups_lookup c cs : ∀ prev i conf,
  cs !! i = Some conf →
  groups c prev cs !! i
  = Some (group c (match i with O => prev | S _ => previous cs i end) conf).
Proof.
  induction cs as [|conf0 cs IH]; intros prev i conf Hi; [done|].
  destruct i as [|i]; simpl in *.
  - by simplify_eq.
  - rewrite (IH _ _ _ Hi). destruct i as [|i]; simpl; [done|].
    by destruct (cs !! i).
Qed.

Lemma groups_lookup_empty c cs i conf :
  cs !! i = Some conf → groups c ∅ cs !! i = Some (group c (previous cs i) conf).
Proof. intros Hi. rewrite (groups_lookup _ _ _ _ _ Hi). by destruct i. Qed.

(** ** What one snapshot emits *)

Lemma property_event_fields v c prev kv e :
  property_event v c prev kv = Some e →
  e !! "key" = Some (SStr kv.1) ∧ e !! "value" = Some kv.2 ∧
  e !! "version" = Some v ∧
  (e !! "action" = Some (SStr "ADDED") ∨ e !! "action" = Some (SStr "CHANGED")).
Proof.
  unfold property_event. destruct (prev !! kv.1) as [old|].
  - case_bool_decide; [|done]. intros [= <-]. repeat split; auto.
  - intros [= <-]. repeat split; auto.
Qed.

Lemma removal_event_fields v c (props : gmap string scalar) kv e :
  removal_event v c props kv = Some e →
  e !! "key" = Some (SStr kv.1) ∧ e !! "value" = Some kv.2 ∧
  e !! "version" = Some v ∧ e !! "action" = Some (SStr "REMOVED").
Proof.
  unfold removal_event. case_bool_decide; [|done]. intros [= <-]. by repeat split.
Qed.

Lemma NoDup_omap_inj {A B : Type} (f : A → option B) (l : list A) :
  (∀ x y z, f x = Some z → f y = Some z → x = y) →
  NoDup l → NoDup (omap f l).
Proof.
  intros Hinj. induction 1 as [|x l Hx Hl IH]; simpl; [constructor|].
  destruct (f x) as [z|] eqn:Hz; [|done].
  constructor; [|done].
  rewrite list_elem_of_omap. intros (y & Hy & Hfy).
  by rewrite (Hinj _ _ _ Hz Hfy) in Hx.
Qed.

Lemma NoDup_added_changed c prev conf : NoDup (added_changed c prev conf).
Proof.
  apply NoDup_omap_inj; [|apply NoDup_map_to_list].
  intros [k1 v1] [k2 v2] e H1 H2.
  apply property_event_fields in H1 as (Hk1 & Hv1 & _).
  apply property_event_fields in H2 as (Hk2 & Hv2 & _).
  simpl in *. congruence.
Qed.

Lemma NoDup_removed c prev conf : NoDup (removed c prev conf).
Proof.
  apply NoDup_omap_inj; [|apply NoDup_map_to_list].
  intros [k1 v1] [k2 v2] e H1 H2.
  apply removal_event_fields in H1 as (Hk1 & Hv1 & _).
  apply removal_event_fields in H2 as (Hk2 & Hv2 & _).
  simpl in *. congruence.
Qed.

Lemma NoDup_group c prev conf : NoDup (group c prev conf).
Proof.
  apply NoDup_app. split_and!.
  - apply NoDup_added_changed.
  - intros e. unfold added_changed, removed. rewrite !list_elem_of_omap.
    intros (kv & _ & H1) (kv' & _ & H2).
    apply property_event_fields in H1 as (_ & _ & _ & Ha).
    apply removal_event_fields in H2 as (_ & _ & _ & Hr).
    destruct Ha as [Ha|Ha]; congruence.
  - apply NoDup_removed.
Qed.

Lemma elem_of_group c prev conf e :
  e ∈ group c prev conf ↔ emitted c prev conf e.
Proof.
  unfold group, added_changed, removed, emitted.
  rewrite elem_of_app, !list_elem_of_omap. split.
  - intros [([key val] & Hin & He)|([key old] & Hin & He)];
      apply elem_of_map_to_list in Hin.
    + unfold property_event in He. simpl in He.
      destruct (prev !! key) as [old|] eqn:Hprev.
      * case_bool_decide; [|done]. right; left. naive_solver.
      * left. naive_solver.
    + unfold removal_event in He. simpl in He.
      case_bool_decide; [|done]. right; right. naive_solver.
  - intros [(key & val & Hc & Hp & ->)|[(key & val & old & Hc & Hp & Hne & ->)
                                       |(key & old & Hp & Hc & ->)]].
    + left. exists (key, val). split; [by apply elem_of_map_to_list|].
      unfold property_event. simpl. by rewrite Hp.
    + left. exists (key, val). split; [by apply elem_of_map_to_list|].
      unfold property_event. simpl. rewrite Hp. by rewrite bool_decide_true.
    + right. exists (key, old). split; [by apply elem_of_map_to_list|].
      unfold removal_event. simpl. by rewrite bool_decide_true.
Qed.

(** C1. For every state of the object, the log [_config_diff]
    leaves in [audit_log] is the concatenation of one group of
    events per snapshot of [configs], in order.  The [i]-th snapshot
    is compared with [previous]: the empty mapping for the first
    snapshot and, for any other, exactly the mapping of the snapshot
    before it (replaced, not merged).  Its group holds, each once,
    exactly the events of [emitted]: ADDED with the new value for a
    key absent from the previous mapping, CHANGED with the new and
    the old value for a key present in both with different values,
    REMOVED with the previous value for a key of the previous
    mapping absent from the snapshot, and nothing for a key whose
    value is equal. *)
Theorem config_diff_emits_exactly (self : AmbariAudit) :
  ∃ gs : list (list (gmap string scalar)),
    audit_log (_config_diff self) = concat gs ∧
    length gs = length (configs self) ∧
    ∀ (i : nat) conf, configs self !! i = Some conf →
      ∃ g, gs !! i = Some g ∧ NoDup g ∧
           ∀ e, e ∈ g ↔ emitted (config_id self) (previous (configs self) i) conf e.
Proof.
  exists (groups (config_id self) ∅ (configs self)). split_and!.
  - apply config_diff_groups.
  - apply groups_length.
  - intros i conf Hi. eexists. split_and!.
    + by apply groups_lookup_empty.
    + apply NoDup_group.
    + intros e. apply elem_of_group.
Qed.

(** ** The order of the log *)

Lemma omap_keys_filter {A B K X : Type} (f : A → option B) (proj : A → K)
    (P : K → Prop) `{!∀ k, Decision (P k)} (field : B → X) (inj : K → X)
    (l : list A) :
  Forall (λ x, match f x with
               | Some e => P (proj x) ∧ field e = inj (proj x)
               | None => ¬ P (proj x)
               end) l →
  field <$> omap f l = inj <$> filter P (proj <$> l).
Proof.
  induction 1 as [|x l Hx _ IH]; [done|].
  cbn [omap list_omap fmap list_fmap]. rewrite filter_cons.
  destruct (f x) as [e|]; simpl.
  - destruct Hx as [HP He]. rewrite decide_True by done.
    cbn [fmap list_fmap]. f_equal; [done|]. apply IH.
  - rewrite decide_False by done. apply IH.
Qed.

Lemma added_changed_keys c prev conf :
  (λ e, e !! "key") <$> added_changed c prev conf
  = (λ k, Some (SStr k)) <$>
      filter (λ k, prev !! k ≠ properties conf !! k) (map_to_list (properties conf)).*1.
Proof.
  apply omap_keys_filter, Forall_forall. intros [key val] Hin.
  apply elem_of_map_to_list in Hin. unfold property_event. simpl. rewrite Hin.
  destruct (prev !! key) as [old|]; [|by split].
  case_bool_decide; [split; [congruence|done]|congruence].
Qed.

Lemma removed_keys c prev conf :
  (λ e, e !! "key") <$> removed c prev conf
  = (λ k, Some (SStr k)) <$>
      filter (λ k, properties conf !! k = None) (map_to_list prev).*1.
Proof.
  apply omap_keys_filter, Forall_forall. intros [key old] Hin.
  unfold removal_event. simpl. by case_bool_decide.
Qed.

Lemma added_changed_fields c prev conf :
  Forall (λ e, e !! "version" = Some (version conf) ∧
               (e !! "action" = Some (SStr "ADDED") ∨
                e !! "action" = Some (SStr "CHANGED")))
         (added_changed c prev conf).
Proof.
  apply Forall_forall. intros e. unfold added_changed.
  rewrite list_elem_of_omap. intros (kv & _ & He).
  apply property_event_fields in He. tauto.
Qed.

Lemma removed_fields c prev conf :
  Forall (λ e, e !! "version" = Some (version conf) ∧
               e !! "action" = Some (SStr "REMOVED"))
         (removed c prev conf).
Proof.
  apply Forall_forall. intros e. unfold removed.
  rewrite list_elem_of_omap. intros (kv & _ & He).
  apply removal_event_fields in He. tauto.
Qed.

(** C2. The log is the concatenation of one group per snapshot, in
    the order of [configs]; every event of the [i]-th group carries
    the version of the [i]-th snapshot.  Each group is a run of
    ADDED and CHANGED events followed by a run of REMOVED events;
    the keys of the first run are, in iteration order over the
    snapshot's mapping, the keys whose entry differs from the
    previous mapping, and the keys of the second run are, in
    iteration order over the previous mapping, the keys absent from
    the snapshot. *)
Theorem audit_log_grouped_and_ordered (self : AmbariAudit) :
  ∃ gs : list (list (gmap string scalar)),
    audit_log (_config_diff self) = concat gs ∧
    length gs = length (configs self) ∧
    ∀ (i : nat) conf, configs self !! i = Some conf →
      ∃ ac rm,
        gs !! i = Some (ac ++ rm) ∧
        Forall (λ e, e !! "version" = Some (version conf)) (ac ++ rm) ∧
        Forall (λ e, e !! "action" = Some (SStr "ADDED") ∨
                     e !! "action" = Some (SStr "CHANGED")) ac ∧
        Forall (λ e, e !! "action" = Some (SStr "REMOVED")) rm ∧
        (λ e, e !! "key") <$> ac
        = (λ k, Some (SStr k)) <$>
            filter (λ k, previous (configs self) i !! k ≠ properties conf !! k)
                   (map_to_list (properties conf)).*1 ∧
        (λ e, e !! "key") <$> rm
        = (λ k, Some (SStr k)) <$>
            filter (λ k, properties conf !! k = None)
                   (map_to_list (previous (configs self) i)).*1.
Proof.
  exists (groups (config_id self) ∅ (configs self)). split_and!.
  - apply config_diff_groups.
  - apply groups_length.
  - intros i conf Hi.
    exists (added_changed (config_id self) (previous (configs self) i) conf),
           (removed (config_id self) (previous (configs self) i) conf).
    pose proof (added_changed_fields (config_id self) (previous (configs self) i) conf)
      as Hac.
    pose proof (removed_fields (config_id self) (previous (configs self) i) conf)
      as Hrm.
    split_and!.
    + by apply groups_lookup_empty.
    + apply Forall_app. split; eapply Forall_impl; eauto; simpl; tauto.
    + eapply Forall_impl; eauto; simpl; tauto.
    + eapply Forall_impl; eauto; simpl; tauto.
    + apply added_changed_keys.
    + apply removed_keys.
Qed.

(** ** A key that keeps its value *)

Lemma filter_none {A : Type} (P : A → Prop) `{!∀ x, Decision (P x)} (l : list A) :
  Forall (λ x, ¬ P x) l → filter P l = [].
Proof.
  induction 1 as [|x l Hx _ IH]; [done|]. by rewrite filter_cons_False.
Qed.

Lemma filter_unique {A : Type} (P : A → Prop) `{!∀ x, Decision (P x)}
    (l : list A) (x : A) :
  NoDup l → x ∈ l → P x → (∀ y, y ∈ l → P y → y = x) → filter P l = [x].
Proof.
  induction 1 as [|y l Hy Hl IH]; intros Hx HP Huniq; [by apply elem_of_nil in Hx|].
  destruct (decide (P y)) as [HPy|HPy].
  - assert (y = x) as -> by (apply Huniq; [left|done]).
    rewrite filter_cons_True by done.
    f_equal. apply filter_none, Forall_forall. intros z Hz HPz.
    assert (z = x) as -> by (apply Huniq; [by right|done]). done.
  - rewrite filter_cons_False by done. apply IH; [|done|].
    + apply elem_of_cons in Hx as [->|Hx]; done.
    + intros z Hz. apply Huniq. by right.
Qed.

Lemma group_key_added c prev conf key val :
  properties conf !! key = Some val → prev !! key = None →
  filter (λ e, e !! "key" = Some (SStr key)) (group c prev conf)
  = [ADDED (version conf) c key val].
Proof.
  intros Hc Hp. apply filter_unique.
  - apply NoDup_group.
  - apply elem_of_group. left. eauto.
  - done.
  - intros e He Hkey. apply elem_of_group in He.
    destruct He as [(k & v' & Hc' & Hp' & ->)|[(k & v' & old & Hc' & Hp' & Hne & ->)
                                             |(k & old & Hp' & Hc' & ->)]];
      change (Some (SStr k) = Some (SStr key)) in Hkey;
    injection Hkey as ->; congruence.
Qed.

Lemma group_key_silent c prev conf key val :
  properties conf !! key = Some val → prev !! key = Some val →
  filter (λ e, e !! "key" = Some (SStr key)) (group c prev conf) = [].
Proof.
  intros Hc Hp. apply filter_none, Forall_forall. intros e He Hkey.
  apply elem_of_group in He.
  destruct He as [(k & v' & Hc' & Hp' & ->)|[(k & v' & old & Hc' & Hp' & Hne & ->)
                                           |(k & old & Hp' & Hc' & ->)]];
    change (Some (SStr k) = Some (SStr key)) in Hkey;
    injection Hkey as ->; congruence.
Qed.

Lemma groups_key_silent c key val cs : ∀ prev,
  prev !! key = Some val →
  Forall (λ conf, properties conf !! key = Some val) cs →
  filter (λ e, e !! "key" = Some (SStr key)) (concat (groups c prev cs)) = [].
Proof.
  induction cs as [|conf cs IH]; intros prev Hp Hcs; [done|].
  apply Forall_cons in Hcs as [Hc Hcs]. cbn [groups concat].
  rewrite filter_app, (group_key_silent _ _ _ _ _ Hc Hp). simpl. by apply IH.
Qed.

(** C3, as the code has it.  For a key that maps to the same value
    in every snapshot, the events of the log that name this key are
    exactly one: the ADDED event of the first snapshot, which is
    compared with the empty mapping.  No CHANGED and no REMOVED
    event names the key and no later snapshot emits an event for
    it; for an empty sequence there is none at all. *)
Theorem unchanged_key_only_added_first (self : AmbariAudit) (key : string) (val : scalar) :
  Forall (λ conf, properties conf !! key = Some val) (configs self) →
  filter (λ e, e !! "key" = Some (SStr key)) (audit_log (_config_diff self))
  = match configs self with
    | [] => []
    | conf :: _ => [ADDED (version conf) (config_id self) key val]
    end.
Proof.
  intros Hcs. rewrite config_diff_groups.
  destruct (configs self) as [|conf cs]; [done|].
  apply Forall_cons in Hcs as [Hc Hcs]. cbn [groups concat].
  rewrite filter_app, (group_key_added _ _ _ _ _ Hc (lookup_empty _)).
  by rewrite (groups_key_silent _ _ _ _ _ Hc Hcs).
Qed.

(** ** Properties that never change *)

Lemma group_all_added c prev conf :
  prev ⊆ properties conf →
  Forall (λ e, e !! "action" = Some (SStr "ADDED")) (group c prev conf).
Proof.
  intros Hsub. apply Forall_forall. intros e He. apply elem_of_group in He.
  destruct He as [(k & v' & Hc & Hp & ->)|[(k & v' & old & Hc & Hp & Hne & ->)
                                          |(k & old & Hp & Hc & ->)]]; [done| |].
  - eapply lookup_weaken in Hp; [|done]. congruence.
  - eapply lookup_weaken in Hp; [|done]. congruence.
Qed.

Lemma groups_all_added c cs : ∀ prev,
  (∀ conf, cs !! 0%nat = Some conf → prev ⊆ properties conf) →
  (∀ (i : nat) conf conf', cs !! i = Some conf → cs !! S i = Some conf' →
     properties conf ⊆ properties conf') →
  Forall (λ e, e !! "action" = Some (SStr "ADDED")) (concat (groups c prev cs)).
Proof.
  induction cs as [|conf cs IH]; intros prev Hhd Hnext; [constructor|].
  cbn [groups concat]. apply Forall_app. split.
  - apply group_all_added. by apply Hhd.
  - apply IH.
    + intros conf' H0. by apply (Hnext 0%nat conf conf').
    + intros i c1 c2 H1 H2. by apply (Hnext (S i) c1 c2).
Qed.

(** C4. When no property ever changes value, that is, when every
    property of a snapshot is still there with the same value in
    the snapshot that follows it, every event of the log is an
    ADDED event: there is no CHANGED and no REMOVED event, for the
    versions after the first and for the first as well. *)
Theorem unchanging_properties_only_added (self : AmbariAudit) :
  (∀ (i : nat) conf conf',
     configs self !! i = Some conf → configs self !! S i = Some conf' →
     properties conf ⊆ properties conf') →
  Forall (λ e, e !! "action" = Some (SStr "ADDED")) (audit_log (_config_diff self)) ∧
  length (filter (λ e, e !! "action" ≠ Some (SStr "ADDED"))
                 (audit_log (_config_diff self))) = 0%nat.
Proof.
  intros Hnext.
  assert (Forall (λ e, e !! "action" = Some (SStr "ADDED"))
                 (audit_log (_config_diff self))) as Hall.
  { rewrite config_diff_groups. apply groups_all_added; [|done].
    intros conf _. apply map_empty_subseteq. }
  split; [done|].
  apply length_zero_iff_nil, filter_none.
  eapply Forall_impl; [exact Hall|]. simpl. tauto.
Qed.

(** ** Running the engine again *)

Lemma config_diff_unfold self :
  _config_diff self
  = set_audit_log (concat (groups (config_id self) ∅ (configs self))) self.
Proof.
  pose proof (config_diff_groups self) as H. unfold _config_diff in *.
  destruct (foldl _ _ _) as [audit last]. simpl in H. by subst.
Qed.
End diff_engine.

(** * The renderer *)

Section renderer.
Implicit Types (d : gmap string scalar) (text : pyarg).

Lemma bind_Ok {A B : Type} (a : A) (f : A → result B) : Ok a ≫= f = f a.
Proof. done. Qed.

Lemma subscript_lookup d k x : d !! k = Some x → subscript (PyDict d) k = Ok x.
Proof. intros H. unfold subscript, getitem. by rewrite H. Qed.

Lemma truthy_lookup d k x : d !! k = Some x → truthy (PyDict d) = true.
Proof.
  intros H. apply bool_decide_eq_true. intros ->. by rewrite lookup_empty in H.
Qed.

Lemma falsy_inv text : truthy text = false → text = PyNone ∨ text = PyDict ∅.
Proof.
  destruct text as [|d]; [by left|]. simpl. intros H. right. f_equal.
  apply bool_decide_eq_false in H. by apply dec_stable.
Qed.

Lemma format_field_Ok (v : scalar) : encodable v = true → format_field v = Ok (str v).
Proof. intros H. unfold format_field. by rewrite H. Qed.

Lemma format_field_Raise (v : scalar) :
  encodable v = false → format_field v = Raise UnicodeEncodeError.
Proof. intros H. unfold format_field. by rewrite H. Qed.

Lemma format_field_Ok_inv (v : scalar) (x : string) :
  format_field v = Ok x → x = str v ∧ encodable v = true.
Proof. unfold format_field. destruct (encodable v); [|done]. by intros [= <-]. Qed.

Lemma format_field_cases (v : scalar) :
  format_field v = Ok (str v) ∨ format_field v = Raise UnicodeEncodeError.
Proof. unfold format_field. destruct (encodable v); auto. Qed.

Lemma render_not_changed d type version action key value :
  d !! "type" = Some type → d !! "version" = Some version →
  d !! "action" = Some action → d !! "key" = Some key →
  d !! "value" = Some value → action ≠ SStr "CHANGED" →
  encodable type = true → encodable version = true → encodable action = true →
  encodable key = true → encodable value = true →
  _get_audit_log_string (PyDict d) = Ok (template type version action key value).
Proof.
  intros Ht Hv Ha Hk Hval Hne Et Ev Ea Ek Eval. unfold _get_audit_log_string.
  rewrite (truthy_lookup _ _ _ Ht). cbn [negb].
  rewrite (subscript_lookup _ _ _ Ha), bind_Ok, bool_decide_true by done.
  rewrite (subscript_lookup _ _ _ Ht), (subscript_lookup _ _ _ Hv),
    (subscript_lookup _ _ _ Hk), (subscript_lookup _ _ _ Hval).
  rewrite !bind_Ok.
  rewrite (format_field_Ok _ Et), bind_Ok, (format_field_Ok _ Ev), bind_Ok.
  rewrite (format_field_Ok _ Ea), bind_Ok, (format_field_Ok _ Ek), bind_Ok.
  by rewrite (format_field_Ok _ Eval), bind_Ok.
Qed.

Lemma render_changed d type version key value old_value :
  d !! "type" = Some type → d !! "version" = Some version →
  d !! "action" = Some (SStr "CHANGED") → d !! "key" = Some key →
  d !! "value" = Some value → d !! "old_value" = Some old_value →
  encodable type = true → encodable version = true → encodable key = true →
  encodable old_value = true → encodable value = true →
  _get_audit_log_string (PyDict d)
  = Ok (template_changed type version (SStr "CHANGED") key old_value value).
Proof.
  intros Ht Hv Ha Hk Hval Hold Et Ev Ek Eold Eval. unfold _get_audit_log_string.
  rewrite (truthy_lookup _ _ _ Ht). cbn [negb].
  rewrite (subscript_lookup _ _ _ Ha), bind_Ok, bool_decide_false by naive_solver.
  rewrite (subscript_lookup _ _ _ Ht), (subscript_lookup _ _ _ Hv),
    (subscript_lookup _ _ _ Hk), (subscript_lookup _ _ _ Hval),
    (subscript_lookup _ _ _ Hold).
  rewrite !bind_Ok.
  rewrite (format_field_Ok _ Et), bind_Ok, (format_field_Ok _ Ev), bind_Ok.
  rewrite (format_field_Ok (SStr "CHANGED") eq_refl), bind_Ok.
  rewrite (format_field_Ok _ Ek), bind_Ok, (format_field_Ok _ Eold), bind_Ok.
  by rewrite (format_field_Ok _ Eval), bind_Ok.
Qed.

(** A field the formatter reaches and cannot encode. *)
Lemma render_value_not_encodable d type version action key value :
  d !! "type" = Some type → d !! "version" = Some version →
  d !! "action" = Some action → d !! "key" = Some key →
  d !! "value" = Some value →
  (action = SStr "CHANGED" → is_Some (d !! "old_value")) →
  encodable value = false →
  _get_audit_log_string (PyDict d) = Raise UnicodeEncodeError.
Proof.
  intros Ht Hv Ha Hk Hval Hold Eval. unfold _get_audit_log_string.
  rewrite (truthy_lookup _ _ _ Ht). cbn [negb].
  rewrite (subscript_lookup _ _ _ Ha), bind_Ok.
  rewrite (subscript_lookup _ _ _ Ht), (subscript_lookup _ _ _ Hv),
    (subscript_lookup _ _ _ Hk), (subscript_lookup _ _ _ Hval).
  case_bool_decide as Hact.
  - rewrite !bind_Ok.
    destruct (format_field_cases type) as [-> | ->]; [rewrite bind_Ok|done].
    destruct (format_field_cases version) as [-> | ->]; [rewrite bind_Ok|done].
    destruct (format_field_cases action) as [-> | ->]; [rewrite bind_Ok|done].
    destruct (format_field_cases key) as [-> | ->]; [rewrite bind_Ok|done].
    by rewrite (format_field_Raise _ Eval).
  - destruct (Hold Hact) as [old Ho].
    rewrite (subscript_lookup _ _ _ Ho), !bind_Ok.
    destruct (format_field_cases type) as [-> | ->]; [rewrite bind_Ok|done].
    destruct (format_field_cases version) as [-> | ->]; [rewrite bind_Ok|done].
    destruct (format_field_cases action) as [-> | ->]; [rewrite bind_Ok|done].
    destruct (format_field_cases key) as [-> | ->]; [rewrite bind_Ok|done].
    destruct (format_field_cases old) as [-> | ->]; [rewrite bind_Ok|done].
    by rewrite (format_field_Raise _ Eval).
Qed.

(** C5, as the code has it.  The three kinds of event, with any
    version, type, key and values that can be encoded (numbers, and
    texts of ASCII characters only): an ADDED and a REMOVED event are
    rendered as
    [{type}: version {version} - {action} - {key} - {value}], a
    CHANGED event as
    [{type}: version {version} - {action} - {key} - {old_value} => {value}],
    with nothing but the fields' texts between the fixed pieces.  A
    value that is a text with a non-ASCII character is not rendered:
    the renderer raises [UnicodeEncodeError]. *)
Theorem render_event_templates (version : scalar) (type key : string)
    (value old_value : scalar) :
  (is_ascii type = true → encodable version = true → is_ascii key = true →
   encodable value = true →
   _get_audit_log_string (PyDict (ADDED version type key value))
   = Ok (type +:+ ": version " +:+ str version +:+ " - " +:+ "ADDED"
         +:+ " - " +:+ key +:+ " - " +:+ str value) ∧
   _get_audit_log_string (PyDict (REMOVED version type key value))
   = Ok (type +:+ ": version " +:+ str version +:+ " - " +:+ "REMOVED"
         +:+ " - " +:+ key +:+ " - " +:+ str value) ∧
   (encodable old_value = true →
    _get_audit_log_string (PyDict (CHANGED version type key value old_value))
    = Ok (type +:+ ": version " +:+ str version +:+ " - " +:+ "CHANGED"
          +:+ " - " +:+ key +:+ " - " +:+ str old_value +:+ " => " +:+ str value))) ∧
  (encodable value = false →
   _get_audit_log_string (PyDict (ADDED version type key value))
   = Raise UnicodeEncodeError ∧
   _get_audit_log_string (PyDict (REMOVED version type key value))
   = Raise UnicodeEncodeError ∧
   _get_audit_log_string (PyDict (CHANGED version type key value old_value))
   = Raise UnicodeEncodeError).
Proof.
  split.
  - intros Et Ev Ek Eval. split_and!.
    + by rewrite (render_not_changed _ (SStr type) version (SStr "ADDED")
                    (SStr key) value).
    + by rewrite (render_not_changed _ (SStr type) version (SStr "REMOVED")
                    (SStr key) value).
    + intros Eold.
      by rewrite (render_changed _ (SStr type) version (SStr key) value old_value).
  - intros Eval. split_and!.
    + by apply (render_value_not_encodable _ (SStr type) version (SStr "ADDED")
                  (SStr key) value).
    + by apply (render_value_not_encodable _ (SStr type) version (SStr "REMOVED")
                  (SStr key) value).
    + by apply (render_value_not_encodable _ (SStr type) version (SStr "CHANGED")
                  (SStr key) value).
Qed.

Lemma bind_Ok_inv {A B : Type} (m : result A) (f : A → result B) (b : B) :
  m ≫= f = Ok b → ∃ a, m = Ok a ∧ f a = Ok b.
Proof. destruct m as [a|e]; [eauto|done]. Qed.

Lemma subscript_Ok_inv text k x :
  subscript text k = Ok x → ∃ d, text = PyDict d ∧ d !! k = Some x.
Proof.
  destruct text as [|d]; [done|]. unfold subscript, getitem.
  destruct (d !! k) eqn:H; [|done]. intros [= ->]. eauto.
Qed.

(** C10. A falsy argument, which is [None] or the empty dictionary,
    is rendered as the empty string and nothing is raised.  A truthy
    argument is never rendered that way: whenever the renderer
    returns for it, the argument is a dictionary that has the
    fields and the result is one of the two templates filled with
    them. *)
Theorem render_falsy_is_empty (text : pyarg) :
  (truthy text = false → _get_audit_log_string text = Ok "") ∧
  (truthy text = true → ∀ s, _get_audit_log_string text = Ok s →
     ∃ d type version action key value,
       text = PyDict d ∧ d !! "type" = Some type ∧
       d !! "version" = Some version ∧ d !! "action" = Some action ∧
       d !! "key" = Some key ∧ d !! "value" = Some value ∧
       ((action ≠ SStr "CHANGED" ∧ s = template type version action key value) ∨
        (∃ old_value, action = SStr "CHANGED" ∧ d !! "old_value" = Some old_value ∧
           s = template_changed type version action key old_value value))).
Proof.
  split.
  - intros H. unfold _get_audit_log_string. by rewrite H.
  - intros H s. unfold _get_audit_log_string. rewrite H. cbn [negb].
    intros Hs. apply bind_Ok_inv in Hs as (action & Ha & Hs).
    apply subscript_Ok_inv in Ha as (d & -> & Ha).
    case_bool_decide as Hact.
    + apply bind_Ok_inv in Hs as (type & Ht & Hs).
      apply bind_Ok_inv in Hs as (action' & Ha' & Hs).
      apply bind_Ok_inv in Hs as (version & Hv & Hs).
      apply bind_Ok_inv in Hs as (key & Hk & Hs).
      apply bind_Ok_inv in Hs as (value & Hval & Hs).
      apply subscript_Ok_inv in Ht as (? & [= <-] & Ht).
      apply subscript_Ok_inv in Ha' as (? & [= <-] & Ha').
      apply subscript_Ok_inv in Hv as (? & [= <-] & Hv).
      apply subscript_Ok_inv in Hk as (? & [= <-] & Hk).
      apply subscript_Ok_inv in Hval as (? & [= <-] & Hval).
      assert (action' = action) as -> by congruence.
      apply bind_Ok_inv in Hs as (? & [-> _]%format_field_Ok_inv & Hs).
      apply bind_Ok_inv in Hs as (? & [-> _]%format_field_Ok_inv & Hs).
      apply bind_Ok_inv in Hs as (? & [-> _]%format_field_Ok_inv & Hs).
      apply bind_Ok_inv in Hs as (? & [-> _]%format_field_Ok_inv & Hs).
      apply bind_Ok_inv in Hs as (? & [-> _]%format_field_Ok_inv & Hs).
      injection Hs as <-.
      exists d, type, version, action, key, value. split_and!; try done. by left.
    + apply bind_Ok_inv in Hs as (type & Ht & Hs).
      apply bind_Ok_inv in Hs as (action' & Ha' & Hs).
      apply bind_Ok_inv in Hs as (version & Hv & Hs).
      apply bind_Ok_inv in Hs as (key & Hk & Hs).
      apply bind_Ok_inv in Hs as (value & Hval & Hs).
      apply bind_Ok_inv in Hs as (old_value & Hold & Hs).
      apply subscript_Ok_inv in Ht as (? & [= <-] & Ht).
      apply subscript_Ok_inv in Ha' as (? & [= <-] & Ha').
      apply subscript_Ok_inv in Hv as (? & [= <-] & Hv).
      apply subscript_Ok_inv in Hk as (? & [= <-] & Hk).
      apply subscript_Ok_inv in Hval as (? & [= <-] & Hval).
      apply subscript_Ok_inv in Hold as (? & [= <-] & Hold).
      assert (action' = action) as -> by congruence.
      apply bind_Ok_inv in Hs as (? & [-> _]%format_field_Ok_inv & Hs).
      apply bind_Ok_inv in Hs as (? & [-> _]%format_field_Ok_inv & Hs).
      apply bind_Ok_inv in Hs as (? & [-> _]%format_field_Ok_inv & Hs).
      apply bind_Ok_inv in Hs as (? & [-> _]%format_field_Ok_inv & Hs).
      apply bind_Ok_inv in Hs as (? & [-> _]%format_field_Ok_inv & Hs).
      apply bind_Ok_inv in Hs as (? & [-> _]%format_field_Ok_inv & Hs).
      injection Hs as <-.
      exists d, type, version, action, key, value. split_and!; try done.
      right. exists old_value. split_and!; try done.
Qed.
End renderer.

(** * The version sorter *)

Section sorter.
(** ** The order on the sort keys *)

Lemma string_compare_refl (s : string) : String.compare s s = Eq.
Proof.
  pose proof (String.compare_antisym s s) as H.
  destruct (String.compare s s); done.
Qed.

Lemma ascii_compare_refl (a : ascii) : Ascii.compare a a = Eq.
Proof. unfold Ascii.compare. apply N.compare_refl. Qed.

Lemma ascii_compare_lt_trans (a b c : ascii) :
  Ascii.compare a b = Lt → Ascii.compare b c = Lt → Ascii.compare a c = Lt.
Proof. unfold Ascii.compare. rewrite !N.compare_lt_iff. lia. Qed.

Lemma string_compare_lt_trans (s t u : string) :
  String.compare s t = Lt → String.compare t u = Lt → String.compare s u = Lt.
Proof.
  revert t u. induction s as [|a s IH]; intros [|b t] [|c u]; simpl; try done.
  destruct (Ascii.compare a b) eqn:Hab; [|..|done].
  - apply Ascii.compare_eq_iff in Hab as ->.
    destruct (Ascii.compare b c) eqn:Hbc; [|done..]. apply IH.
  - intros _. destruct (Ascii.compare b c) eqn:Hbc; [| |done].
    + apply Ascii.compare_eq_iff in Hbc as <-. by rewrite Hab.
    + by rewrite (ascii_compare_lt_trans _ _ _ Hab Hbc).
Qed.

Lemma string_ltb_irrefl (s : string) : String.ltb s s = false.
Proof. unfold String.ltb. by rewrite string_compare_refl. Qed.

Lemma string_ltb_trichotomy (s t : string) :
  String.ltb s t = false → String.ltb t s = false → s = t.
Proof.
  unfold String.ltb. rewrite (String.compare_antisym t s).
  destruct (String.compare s t) eqn:H; simpl; try done.
  intros _ _. by apply String.compare_eq_iff.
Qed.

Lemma string_ltb_trans (s t u : string) :
  String.ltb s t = true → String.ltb t u = true → String.ltb s u = true.
Proof.
  unfold String.ltb.
  destruct (String.compare s t) eqn:Hst; try done.
  destruct (String.compare t u) eqn:Htu; try done.
  by rewrite (string_compare_lt_trans _ _ _ Hst Htu).
Qed.

Lemma scalar_ltb_irrefl (a : scalar) : scalar_ltb a a = false.
Proof. destruct a; simpl; [lia|apply string_ltb_irrefl]. Qed.

Lemma scalar_ltb_trans (a b c : scalar) :
  scalar_ltb a b = true → scalar_ltb b c = true → scalar_ltb a c = true.
Proof.
  destruct a, b, c; simpl; try done; [lia|apply string_ltb_trans].
Qed.

Lemma scalar_ltb_trichotomy (a b : scalar) :
  scalar_ltb a b = false → scalar_ltb b a = false → a = b.
Proof.
  destruct a, b; simpl; try done.
  - intros. f_equal. lia.
  - intros. f_equal. by apply string_ltb_trichotomy.
Qed.

Lemma scalar_ltb_asym (a b : scalar) :
  scalar_ltb a b = true → scalar_ltb b a = false.
Proof.
  intros Hab. destruct (scalar_ltb b a) eqn:Hba; [|done].
  by rewrite <- (scalar_ltb_trans _ _ _ Hab Hba), scalar_ltb_irrefl.
Qed.

(** "Not greater than" is transitive. *)
Lemma scalar_le_trans (a b c : scalar) :
  scalar_ltb b a = false → scalar_ltb c b = false → scalar_ltb c a = false.
Proof.
  intros Hab Hbc. destruct (scalar_ltb c a) eqn:Hca; [|done].
  destruct (scalar_ltb a b) eqn:Hlt.
  - by rewrite (scalar_ltb_trans _ _ _ Hca Hlt) in Hbc.
  - rewrite (scalar_ltb_trichotomy _ _ Hlt Hab) in Hca. congruence.
Qed.

(** ** Sorting the decorated list *)

Context {A : Type}.
Implicit Types (x y : scalar * A) (l : list (scalar * A)).

Lemma insert_keyed_perm x l : insert_keyed x l ≡ₚ x :: l.
Proof.
  induction l as [|y l IH]; simpl; [done|].
  destruct (scalar_ltb y.1 x.1); [|done]. rewrite IH. apply Permutation_swap.
Qed.

Lemma sort_keyed_perm l : foldr insert_keyed [] l ≡ₚ l.
Proof.
  induction l as [|x l IH]; simpl; [done|]. by rewrite insert_keyed_perm, IH.
Qed.

Lemma insert_keyed_sorted x l :
  StronglySorted keyed_le l → StronglySorted keyed_le (insert_keyed x l).
Proof.
  induction 1 as [|y l Hl IH Hy]; simpl; [repeat constructor|].
  destruct (scalar_ltb y.1 x.1) eqn:Hyx.
  - constructor; [done|]. rewrite insert_keyed_perm. constructor; [|done].
    by apply scalar_ltb_asym.
  - constructor; [by constructor|]. constructor; [done|].
    eapply Forall_impl; [exact Hy|]. intros z Hz. unfold keyed_le in *.
    by apply (scalar_le_trans _ y.1).
Qed.

Lemma sort_keyed_sorted l : StronglySorted keyed_le (foldr insert_keyed [] l).
Proof.
  induction l as [|x l IH]; simpl; [constructor|]. by apply insert_keyed_sorted.
Qed.

(** An item only moves past items with a strictly smaller key, so
    items with one and the same key keep their order. *)
Lemma insert_keyed_stable (v : scalar) x l :
  filter (λ y, y.1 = v) (insert_keyed x l) = filter (λ y, y.1 = v) (x :: l).
Proof.
  induction l as [|y l IH]; simpl; [done|].
  destruct (scalar_ltb y.1 x.1) eqn:Hyx; [|done].
  rewrite (filter_cons _ y), IH, !filter_cons.
  destruct (decide (y.1 = v)) as [Hy|Hy], (decide (x.1 = v)) as [Hx|Hx]; try done.
  rewrite Hy, Hx, scalar_ltb_irrefl in Hyx. done.
Qed.

Lemma sort_keyed_stable (v : scalar) l :
  filter (λ y, y.1 = v) (foldr insert_keyed [] l) = filter (λ y, y.1 = v) l.
Proof.
  induction l as [|x l IH]; simpl; [done|].
  by rewrite insert_keyed_stable, !filter_cons, IH.
Qed.
End sorter.

Section version_sorter.
Implicit Types (item : gmap string scalar) (items out : list (gmap string scalar)).
Implicit Types (keyed : list (scalar * gmap string scalar)) (key : string).

Lemma getitem_Some {V : Type} (d : gmap string V) k (x : V) :
  d !! k = Some x → getitem d k = Ok x.
Proof. intros H. unfold getitem. by rewrite H. Qed.

Lemma getitem_None {V : Type} (d : gmap string V) k :
  d !! k = None → getitem d k = Raise (KeyError k).
Proof. intros H. unfold getitem. by rewrite H. Qed.

Lemma decorate_Ok key items :
  Forall (λ item, is_Some (item !! key)) items →
  ∃ keyed, mapM (λ item, k ← getitem item key; Ok (k, item)) items = Ok keyed ∧
           keyed.*2 = items ∧ Forall (decorated key) keyed.
Proof.
  induction 1 as [|item items [k Hk] _ (keyed & Hm & Hsnd & Hdec)].
  - by exists [].
  - exists ((k, item) :: keyed). split_and!.
    + cbn [mapM]. rewrite (getitem_Some _ _ _ Hk). cbn. by rewrite Hm.
    + by rewrite fmap_cons, Hsnd.
    + by constructor.
Qed.

Lemma decorate_Raise key items item :
  item ∈ items → item !! key = None →
  mapM (λ item, k ← getitem item key; Ok (k, item)) items = Raise (KeyError key).
Proof.
  intros Hin Hnone. induction Hin as [item items|item item' items Hin IH].
  - cbn [mapM]. by rewrite (getitem_None _ _ Hnone).
  - cbn [mapM]. destruct (item' !! key) as [k|] eqn:Hk.
    + rewrite (getitem_Some _ _ _ Hk). cbn. by rewrite IH.
    + by rewrite (getitem_None _ _ Hk).
Qed.

Lemma sorted_items key keyed :
  StronglySorted keyed_le keyed → Forall (decorated key) keyed →
  StronglySorted (key_le key) keyed.*2.
Proof.
  induction 1 as [|p keyed Hs IH Hp]; intros Hdec; [constructor|].
  apply Forall_cons in Hdec as [Hd Hdec]. simpl. constructor; [by apply IH|].
  apply Forall_fmap, Forall_forall. intros q Hq. simpl. unfold key_le.
  rewrite Hd. rewrite Forall_forall in Hdec. rewrite (Hdec q Hq).
  rewrite Forall_forall in Hp. by apply Hp.
Qed.

Lemma filter_items key (v : scalar) keyed :
  Forall (decorated key) keyed →
  filter (λ item, item !! key = Some v) keyed.*2 = (filter (λ p, p.1 = v) keyed).*2.
Proof.
  induction 1 as [|p keyed Hd _ IH]; [done|].
  cbn [fmap list_fmap]. rewrite !filter_cons, IH. unfold decorated in Hd.
  destruct (decide (p.2 !! key = Some v)) as [H1|H1],
           (decide (p.1 = v)) as [H2|H2]; try done; congruence.
Qed.

(** C6. Sorting descriptors on the key [sort_version_by].  When every
    descriptor has the key, the sorter returns a permutation of its
    input, in ascending order of the key, in which the descriptors
    with one and the same key stand in their input order.  When some
    descriptor lacks the key, the sorter returns nothing: it raises
    [KeyError] for that key. *)
Theorem version_sorter_contract key items :
  (Forall (λ item, is_Some (item !! key)) items →
   ∃ out, version_sorter key items = Ok out ∧
          out ≡ₚ items ∧
          StronglySorted (key_le key) out ∧
          ∀ v : scalar, filter (λ item, item !! key = Some v) out
                        = filter (λ item, item !! key = Some v) items) ∧
  (∀ item, item ∈ items → item !! key = None →
           version_sorter key items = Raise (KeyError key)).
Proof.
  split.
  - intros Hkeys. destruct (decorate_Ok key items Hkeys) as (keyed & Hm & Hsnd & Hdec).
    assert (Forall (decorated key) (foldr insert_keyed [] keyed)) as Hdec'.
    { by rewrite sort_keyed_perm. }
    exists (foldr insert_keyed [] keyed).*2. split_and!.
    + unfold version_sorter, sorted. by rewrite Hm.
    + by rewrite sort_keyed_perm, Hsnd.
    + apply sorted_items; [apply sort_keyed_sorted|done].
    + intros v. rewrite <- Hsnd.
      by rewrite !filter_items, sort_keyed_stable.
  - intros item Hin Hnone. unfold version_sorter, sorted.
    by rewrite (decorate_Raise _ _ _ Hin Hnone).
Qed.
End version_sorter.

(** * The two fetch loops *)

Section fetching.
Implicit Types (self : AmbariAudit) (cversion : gmap string scalar).

(** ** One step of a method body *)

Lemma bind_lift_Ok {A B : Type} (a : A) (f : A → M B) self :
  (lift (Ok a) ≫= f) self = f a self.
Proof. done. Qed.

Lemma bind_lift_Raise {A B : Type} (e : pyerr) (f : A → M B) self :
  (lift (Raise e) ≫= f) self = (Raise e, self).
Proof. done. Qed.

Lemma bind_get_self {B : Type} (f : AmbariAudit → M B) self :
  (get_self ≫= f) self = f self self.
Proof. done. Qed.

Lemma bind_modify {B : Type} (g : AmbariAudit → AmbariAudit) (f : unit → M B) self :
  (modify g ≫= f) self = f () (g self).
Proof. done. Qed.

Lemma bind_session_get {A B : Type} (url : string) (params : list (string * string))
    (answer : result (response A)) (f : response A → M B) self :
  (session_get url params answer ≫= f) self
  = (lift answer ≫= f) (set_requested (requested self ++ [GET url params]) self).
Proof. done. Qed.

Lemma bind_M_Ok {A B : Type} (m : M A) (f : A → M B) self (a : A) self' :
  m self = (Ok a, self') → (m ≫= f) self = f a self'.
Proof. intros H. unfold mbind, M_bind. by rewrite H. Qed.

Lemma bind_M_Raise {A B : Type} (m : M A) (f : A → M B) self (e : pyerr) self' :
  m self = (Raise e, self') → (m ≫= f) self = (Raise e, self').
Proof. intros H. unfold mbind, M_bind. by rewrite H. Qed.

Ltac step :=
  first [ rewrite bind_lift_Ok | rewrite bind_lift_Raise | rewrite bind_get_self
        | rewrite bind_modify | rewrite bind_session_get ];
  cbv beta.

(** ** One version *)

Lemma retrieve_config_skip self cversion href r :
  cversion !! "href" = Some href →
  config_response (session self) (str href) = Ok r →
  status_code r ≠ 200 →
  retrieve_config cversion self
  = (Ok (), set_requested (requested self ++ [GET (str href) []]) self).
Proof.
  intros Hhref Hr Hst. unfold retrieve_config.
  rewrite (getitem_Some _ _ _ Hhref). do 3 step. rewrite Hr. step.
  by rewrite bool_decide_true.
Qed.

Lemma retrieve_config_fetch self cversion href r conf rest :
  cversion !! "href" = Some href →
  config_response (session self) (str href) = Ok r →
  status_code r = 200 →
  body r = Object (Some (conf :: rest)) →
  retrieve_config cversion self
  = (Ok (), set_configs (configs self ++ [conf])
              (set_requested (requested self ++ [GET (str href) []]) self)).
Proof.
  intros Hhref Hr Hst Hbody. unfold retrieve_config.
  rewrite (getitem_Some _ _ _ Hhref). do 3 step. rewrite Hr. step.
  rewrite bool_decide_false by (by intros []).
  unfold json. rewrite Hbody. by do 3 step.
Qed.

(** ** All versions *)

Lemma for_each_retrieve_config (l : list (gmap string scalar)) : ∀ self,
  Forall (fetchable (session self)) l →
  for_each l retrieve_config self
  = (Ok (), set_configs (configs self ++ omap (fetched (session self)) l)
              (set_requested (requested self ++ omap href_of l) self)).
Proof.
  induction l as [|cversion l IH]; intros self Hl.
  - cbn. rewrite !app_nil_r. by destruct self.
  - apply Forall_cons in Hl as [(href & r & Hhref & Hr & Hbody) Hl].
    cbn [for_each omap list_omap]. unfold href_of at 1, fetched at 1.
    rewrite Hhref, Hr. cbn [fmap option_fmap option_map].
    destruct (decide (status_code r = 200)) as [Hst|Hst].
    + destruct (Hbody Hst) as (conf & rest & Hb).
      rewrite bool_decide_true, Hb by done.
      rewrite (bind_M_Ok _ _ _ _ _
                 (retrieve_config_fetch _ _ _ _ _ _ Hhref Hr Hst Hb)).
      rewrite IH by done. cbn. by rewrite <- !app_assoc.
    + rewrite bool_decide_false by done.
      rewrite (bind_M_Ok _ _ _ _ _ (retrieve_config_skip _ _ _ _ Hhref Hr Hst)).
      rewrite IH by done. cbn. by rewrite <- !app_assoc.
Qed.

(** C8. A version whose response has a status other than 200, every
    non-success status included, is skipped: the step raises nothing,
    appends nothing to [configs], leaves the log and the output alone
    and has issued its one request.  When the fetch of every version
    is either skipped so or successful, [_retrieve_configs] raises nothing, has
    requested every href once, in order, and has appended to [configs]
    exactly the snapshots of the versions fetched with status 200, in
    the order of [config_versions]. *)
Theorem retrieve_configs_skips_failures self :
  (∀ cversion href r,
     cversion !! "href" = Some href →
     config_response (session self) (str href) = Ok r →
     ¬ (200 ≤ status_code r < 300) →
     fetched (session self) cversion = None ∧
     retrieve_config cversion self
     = (Ok (), set_requested (requested self ++ [GET (str href) []]) self)) ∧
  (Forall (fetchable (session self)) (config_versions self) →
   _retrieve_configs self
   = (Ok (), set_configs
               (configs self ++ omap (fetched (session self)) (config_versions self))
               (set_requested (requested self ++ omap href_of (config_versions self))
                  self))).
Proof.
  split.
  - intros cversion href r Hhref Hr Hst.
    assert (status_code r ≠ 200) as Hne by lia. split.
    + unfold fetched. rewrite Hhref, Hr. by rewrite bool_decide_false.
    + by apply (retrieve_config_skip _ _ _ r).
  - intros Hall. unfold _retrieve_configs. step. by apply for_each_retrieve_config.
Qed.

(** ** The version listing *)

Lemma init_sort_version_by url srv config :
  sort_version_by (init url srv config) = "version".
Proof. done. Qed.

(** A listing with items: the sorter's outcome is the method's. *)
Lemma retrieve_config_versions_sorts self r item items :
  list_response (session self) [("type", config_id self)] = Ok r →
  body r = Object (Some (item :: items)) →
  _retrieve_config_versions self
  = match version_sorter (sort_version_by self) (item :: items) with
    | Ok vs =>
        (Ok (), set_config_versions vs
                  (set_requested
                     (requested self ++ [listing_request self]) self))
    | Raise e =>
        (Raise e,
         set_requested (requested self ++ [listing_request self]) self)
    end.
Proof.
  intros Hr Hbody. unfold _retrieve_config_versions. do 2 step. rewrite Hr. step.
  unfold json. rewrite Hbody. step.
  destruct (version_sorter _ _) as [vs|e]; by step.
Qed.

Lemma retrieve_config_versions_malformed self r :
  list_response (session self) [("type", config_id self)] = Ok r → body r = Malformed →
  _retrieve_config_versions self
  = (Raise ValueError,
     set_requested (requested self ++ [listing_request self]) self).
Proof.
  intros Hr Hbody. unfold _retrieve_config_versions. do 2 step. rewrite Hr. step.
  unfold json. rewrite Hbody. by step.
Qed.

Lemma retrieve_config_versions_no_items self r :
  list_response (session self) [("type", config_id self)] = Ok r →
  body r = Object None ∨ body r = Object (Some []) →
  _retrieve_config_versions self
  = (Ok (),
     set_requested (requested self ++ [listing_request self]) self).
Proof.
  intros Hr Hbody. unfold _retrieve_config_versions. do 2 step. rewrite Hr. step.
  unfold json. by destruct Hbody as [-> | ->]; step.
Qed.

(** The outcome of the listing is read off the body of the answer
    alone. *)
Lemma retrieve_config_versions_by_body self r :
  list_response (session self) [("type", config_id self)] = Ok r →
  _retrieve_config_versions self
  = match body r with
    | Malformed =>
        (Raise ValueError, set_requested (requested self ++ [listing_request self]) self)
    | Object (Some (item :: items)) =>
        match version_sorter (sort_version_by self) (item :: items) with
        | Ok vs =>
            (Ok (), set_config_versions vs
                      (set_requested (requested self ++ [listing_request self]) self))
        | Raise e =>
            (Raise e, set_requested (requested self ++ [listing_request self]) self)
        end
    | Object _ =>
        (Ok (), set_requested (requested self ++ [listing_request self]) self)
    end.
Proof.
  intros Hr. destruct (body r) as [|[[|item items]|]] eqn:Hbody.
  - by apply (retrieve_config_versions_malformed _ r).
  - apply (retrieve_config_versions_no_items _ r); auto.
  - by apply (retrieve_config_versions_sorts _ r).
  - apply (retrieve_config_versions_no_items _ r); auto.
Qed.

(** C7, as the code has it.  A version listing whose body is not
    JSON makes [_retrieve_config_versions] raise the decoding error,
    whatever the status of the response, and the run ends there: the
    listing is the only request issued, no snapshot is fetched, the
    log is not computed and nothing is printed or written.  The
    status of the listing is not looked at.  Two objects that differ
    in nothing the method reads but the status of the listing they
    are answered with get the same outcome, exception or not, and the
    same list of versions.  With a well-formed body that has no items
    the method raises nothing, at any status, and leaves the list of
    versions as it was. *)
Theorem listing_malformed_body_is_fatal self r (fnout : string) :
  list_response (session self) [("type", config_id self)] = Ok r →
  (body r = Malformed →
   _retrieve_config_versions self
   = (Raise ValueError,
      set_requested (requested self ++ [listing_request self]) self) ∧
   execute fnout self
   = (Raise ValueError,
      set_requested (requested self ++ [listing_request self]) self)) ∧
  (∀ self' r',
     list_response (session self') [("type", config_id self')] = Ok r' →
     body r' = body r →
     sort_version_by self' = sort_version_by self →
     config_versions self' = config_versions self →
     (_retrieve_config_versions self').1 = (_retrieve_config_versions self).1 ∧
     config_versions (_retrieve_config_versions self').2
     = config_versions (_retrieve_config_versions self).2) ∧
  (body r = Object None ∨ body r = Object (Some []) →
   _retrieve_config_versions self
   = (Ok (),
      set_requested (requested self ++ [listing_request self]) self)).
Proof.
  intros Hr. split_and!.
  - intros Hbody. split; [by apply (retrieve_config_versions_malformed _ r)|].
    unfold execute.
    by rewrite (bind_M_Raise _ _ _ _ _ (retrieve_config_versions_malformed _ r Hr Hbody)).
  - intros self' r' Hr' Hbody Hkey Hvs.
    rewrite (retrieve_config_versions_by_body _ _ Hr),
      (retrieve_config_versions_by_body _ _ Hr'), Hbody, Hkey.
    destruct (body r) as [|[[|item items]|]];
      try destruct (version_sorter (sort_version_by self) (item :: items));
      cbn; done.
  - by apply (retrieve_config_versions_no_items _ r).
Qed.
End fetching.

(** * The statements at concrete inputs *)

Example demo_rendered :
  mapM (λ e, _get_audit_log_string (PyDict e)) (audit_log (_config_diff demo))
  = Ok ["hdfs-site: version 1 - ADDED - a - 1";
        "hdfs-site: version 1 - ADDED - b - 2";
        "hdfs-site: version 2 - ADDED - c - 3";
        "hdfs-site: version 2 - CHANGED - a - 1 => 5";
        "hdfs-site: version 2 - REMOVED - b - 2"].
Proof. by vm_compute. Qed.

Example execute_prints :
  let '(r, self) := execute "" (init "http://h" srv "hdfs-site") in
  r = Ok () ∧
  requested self = [GET "http://h/configurations" [("type", "hdfs-site")];
                    GET "u1" []; GET "u2" []; GET "u3" []] ∧
  stdout self = ["hdfs-site: version 1 - ADDED - a - 1";
                 "hdfs-site: version 1 - ADDED - b - 2";
                 "hdfs-site: version 3 - ADDED - c - 3";
                 "hdfs-site: version 3 - CHANGED - a - 1 => 5";
                 "hdfs-site: version 3 - REMOVED - b - 2"].
Proof. by vm_compute. Qed.

Example not_found_runs_on :
  let '(r, self) := execute "" not_found in
  r = Ok () ∧ config_versions self = [] ∧ audit_log self = [] ∧ stdout self = [].
Proof. by vm_compute. Qed.

Lemma config_diff_emits_exactly_witness :
  ∃ gs : list (list (gmap string scalar)),
    audit_log (_config_diff demo) = concat gs ∧
    length gs = 2%nat ∧
    ∀ (i : nat) conf, configs demo !! i = Some conf →
      ∃ g, gs !! i = Some g ∧ NoDup g ∧
           ∀ e, e ∈ g ↔ emitted "hdfs-site" (previous (configs demo) i) conf e.
Proof. exact (config_diff_emits_exactly demo). Defined.

Lemma unchanged_key_is_logged :
  ¬ (∀ (self : AmbariAudit) (key : string) (val : scalar),
       Forall (λ conf, properties conf !! key = Some val) (configs self) →
       Forall (λ e, e !! "key" ≠ Some (SStr key)) (audit_log (_config_diff self))).
Proof.
  intros H. specialize (H one_snapshot "a" (SStr "1")).
  assert (audit_log (_config_diff one_snapshot)
          = [ADDED (SInt 1) "hdfs-site" "a" (SStr "1")]) as Hlog by (by vm_compute).
  rewrite Hlog in H. assert (Forall (λ conf, properties conf !! "a" = Some (SStr "1"))
                               (configs one_snapshot)) as Hc by (by repeat constructor).
  apply H in Hc. apply Forall_cons in Hc as [Hc _]. by apply Hc.
Qed.

Lemma unchanged_key_only_added_first_witness :
  Forall (λ conf, properties conf !! "a" = Some (SStr "1")) (configs constant_key) ∧
  filter (λ e, e !! "key" = Some (SStr "a")) (audit_log (_config_diff constant_key))
  = [ADDED (SInt 1) "hdfs-site" "a" (SStr "1")].
Proof.
  split; [by repeat constructor|].
  apply (unchanged_key_only_added_first constant_key "a" (SStr "1")).
  by repeat constructor.
Defined.

Lemma unchanging_properties_only_added_witness :
  (∀ (i : nat) conf conf',
     configs growing !! i = Some conf → configs growing !! S i = Some conf' →
     properties conf ⊆ properties conf') ∧
  Forall (λ e, e !! "action" = Some (SStr "ADDED")) (audit_log (_config_diff growing)) ∧
  length (filter (λ e, e !! "action" ≠ Some (SStr "ADDED"))
                 (audit_log (_config_diff growing))) = 0%nat.
Proof.
  assert (∀ (i : nat) conf conf',
            configs growing !! i = Some conf → configs growing !! S i = Some conf' →
            properties conf ⊆ properties conf') as Hnext.
  { intros [|[|i]] conf conf'; cbn; intros [= <-] [= <-].
    apply insert_subseteq. reflexivity. }
  split; [exact Hnext|]. exact (unchanging_properties_only_added growing Hnext).
Defined.

Lemma removal_without_change_is_logged :
  ¬ (∀ self : AmbariAudit,
       (∀ (i j : nat) conf conf' key val val',
          configs self !! i = Some conf → configs self !! j = Some conf' →
          properties conf !! key = Some val → properties conf' !! key = Some val' →
          val = val') →
       Forall (λ e, e !! "action" = Some (SStr "ADDED") ∨
                    e !! "version" = version <$> head (configs self))
              (audit_log (_config_diff self))).
Proof.
  intros H. specialize (H shrinking).
  assert (audit_log (_config_diff shrinking)
          = [ADDED (SInt 1) "hdfs-site" "a" (SStr "1");
             ADDED (SInt 1) "hdfs-site" "b" (SStr "2");
             REMOVED (SInt 2) "hdfs-site" "b" (SStr "2")]) as Hlog by (by vm_compute).
  rewrite Hlog in H.
  assert (Forall (λ e, e !! "action" = Some (SStr "ADDED") ∨
                       e !! "version" = version <$> head (configs shrinking))
                 [ADDED (SInt 1) "hdfs-site" "a" (SStr "1");
                  ADDED (SInt 1) "hdfs-site" "b" (SStr "2");
                  REMOVED (SInt 2) "hdfs-site" "b" (SStr "2")]) as Hall.
  { apply H. intros [|[|i]] [|[|j]] conf conf' key val val' Hi Hj; try done;
      injection Hi as <-; injection Hj as <-; cbn;
      intros Hk Hk'.
    - congruence.
    - destruct (decide (key = "a")) as [->|Hne].
      + vm_compute in Hk, Hk'. congruence.
      + rewrite lookup_insert_ne, lookup_empty in Hk' by done. done.
    - destruct (decide (key = "a")) as [->|Hne].
      + vm_compute in Hk, Hk'. congruence.
      + rewrite lookup_insert_ne, lookup_empty in Hk by done. done.
    - congruence. }
  apply Forall_cons in Hall as [_ Hall]. apply Forall_cons in Hall as [_ Hall].
  apply Forall_cons in Hall as [[Hact|Hver] _]; vm_compute in Hact || vm_compute in Hver;
    discriminate.
Qed.

Lemma non_ascii_value_is_not_rendered :
  ¬ (∀ (version : scalar) (type key : string) (value : scalar),
       _get_audit_log_string (PyDict (ADDED version type key value))
       = Ok (type +:+ ": version " +:+ str version +:+ " - " +:+ "ADDED"
             +:+ " - " +:+ key +:+ " - " +:+ str value)).
Proof.
  intros H. specialize (H (SInt 1) "hdfs-site" "owner" (SStr accented)).
  vm_compute in H. discriminate H.
Qed.

Lemma render_event_templates_witness :
  _get_audit_log_string (PyDict (ADDED (SInt 1) "hdfs-site" "a" (SStr "1")))
  = Ok "hdfs-site: version 1 - ADDED - a - 1" ∧
  _get_audit_log_string (PyDict (REMOVED (SInt 1) "hdfs-site" "a" (SStr "1")))
  = Ok "hdfs-site: version 1 - REMOVED - a - 1" ∧
  _get_audit_log_string (PyDict (CHANGED (SInt 1) "hdfs-site" "a" (SStr "1") (SStr "0")))
  = Ok "hdfs-site: version 1 - CHANGED - a - 0 => 1" ∧
  _get_audit_log_string (PyDict (ADDED (SInt 1) "hdfs-site" "owner" (SStr accented)))
  = Raise UnicodeEncodeError.
Proof.
  destruct (proj1 (render_event_templates (SInt 1) "hdfs-site" "a" (SStr "1") (SStr "0"))
              eq_refl eq_refl eq_refl eq_refl) as (Ha & Hr & Hc).
  split; [exact Ha|]. split; [exact Hr|]. split; [exact (Hc eq_refl)|].
  exact (proj1 (proj2 (render_event_templates (SInt 1) "hdfs-site" "owner"
                         (SStr accented) (SStr "0")) eq_refl)).
Defined.

Lemma render_falsy_is_empty_witness :
  truthy (PyDict ∅) = false ∧ _get_audit_log_string (PyDict ∅) = Ok "" ∧
  truthy PyNone = false ∧ _get_audit_log_string PyNone = Ok "".
Proof.
  split; [reflexivity|]. split.
  - apply (proj1 (render_falsy_is_empty (PyDict ∅))). reflexivity.
  - split; [reflexivity|]. apply (proj1 (render_falsy_is_empty PyNone)). reflexivity.
Defined.

Lemma version_sorter_contract_witness :
  (∃ out, version_sorter "version" [desc 3 "u3"; desc 1 "u1"; desc 2 "u2"; desc 1 "u0"]
          = Ok out ∧
          out ≡ₚ [desc 3 "u3"; desc 1 "u1"; desc 2 "u2"; desc 1 "u0"] ∧
          StronglySorted (key_le "version") out ∧
          ∀ v : scalar,
            filter (λ item, item !! "version" = Some v) out
            = filter (λ item, item !! "version" = Some v)
                     [desc 3 "u3"; desc 1 "u1"; desc 2 "u2"; desc 1 "u0"]) ∧
  version_sorter "version" [desc 3 "u3"; {[ "href" := SStr "u1" ]}; desc 2 "u2"]
  = Raise (KeyError "version").
Proof.
  split.
  - apply (proj1 (version_sorter_contract "version"
                    [desc 3 "u3"; desc 1 "u1"; desc 2 "u2"; desc 1 "u0"])).
    repeat constructor; eexists; reflexivity.
  - apply (proj2 (version_sorter_contract "version"
                    [desc 3 "u3"; {[ "href" := SStr "u1" ]}; desc 2 "u2"])
             {[ "href" := SStr "u1" ]}).
    + apply list_elem_of_In. right. left. reflexivity.
    + reflexivity.
Defined.

Lemma listing_status_not_raised :
  ¬ (∀ (self : AmbariAudit) (r : response (gmap string scalar)),
       list_response (session self) [("type", config_id self)] = Ok r →
       ¬ (200 ≤ status_code r < 300) ∨ body r = Malformed →
       ∃ e, (_retrieve_config_versions self).1 = Raise e).
Proof.
  intros H.
  destruct (H not_found {| status_code := 404; body := Object None |}) as [e He].
  - reflexivity.
  - left. cbn. lia.
  - vm_compute in He. discriminate He.
Qed.

Lemma listing_malformed_body_is_fatal_witness :
  list_response (session bad_gateway) [("type", config_id bad_gateway)]
  = Ok {| status_code := 502; body := Malformed |} ∧
  _retrieve_config_versions bad_gateway
  = (Raise ValueError,
     set_requested [listing_request bad_gateway] bad_gateway) ∧
  execute "audit.log" bad_gateway
  = (Raise ValueError,
     set_requested [listing_request bad_gateway] bad_gateway).
Proof.
  split; [reflexivity|].
  apply (proj1 (listing_malformed_body_is_fatal bad_gateway
                  {| status_code := 502; body := Malformed |} "audit.log" eq_refl)).
  reflexivity.
Defined.

Lemma retrieve_configs_skips_failures_witness :
  Forall (fetchable (session listed)) (config_versions listed) ∧
  _retrieve_configs listed
  = (Ok (), set_configs [snap 1 [("a","1");("b","2")]; snap 3 [("a","5");("c","3")]]
              (set_requested [GET "u1" []; GET "u2" []; GET "u3" []] listed)).
Proof.
  assert (Forall (fetchable (session listed)) (config_versions listed)) as Hall.
  { repeat constructor.
    - exists (SStr "u1"), {| status_code := 200;
                             body := Object (Some [snap 1 [("a","1");("b","2")]]) |}.
      split; [reflexivity|]. split; [reflexivity|]. intros _. eexists _, _. reflexivity.
    - exists (SStr "u2"), {| status_code := 500; body := Malformed |}.
      split; [reflexivity|]. split; [reflexivity|]. cbn. intros H. discriminate H.
    - exists (SStr "u3"), {| status_code := 200;
                             body := Object (Some [snap 3 [("a","5");("c","3")]]) |}.
      split; [reflexivity|]. split; [reflexivity|]. intros _. eexists _, _. reflexivity. }
  split; [exact Hall|].
  exact (proj2 (retrieve_configs_skips_failures listed) Hall).
Defined.

(** * More on the diff engine *)

Section diff_engine_more.
Implicit Types (prev : gmap string scalar) (conf : ConfigSnapshot).
Implicit Types (e : gmap string scalar) (cs : list ConfigSnapshot) (c : string).

Lemma config_diff_set_configs self cs :
  audit_log (_config_diff (set_configs cs self))
  = concat (groups (config_id self) ∅ cs).
Proof. by rewrite config_diff_groups. Qed.

Lemma groups_app c cs1 cs2 : ∀ prev,
  groups c prev (cs1 ++ cs2)
  = groups c prev cs1 ++ groups c (default prev (properties <$> last cs1)) cs2.
Proof.
  induction cs1 as [|conf cs1 IH]; intros prev; [done|].
  cbn [app groups]. rewrite IH.
  assert (default (properties conf) (properties <$> last cs1)
          = default prev (properties <$> last (conf :: cs1))) as ->; [|done].
  rewrite last_cons. by destruct (last cs1).
Qed.

Lemma group_first c conf :
  group c ∅ conf
  = (λ kv, ADDED (version conf) c kv.1 kv.2) <$> map_to_list (properties conf).
Proof.
  unfold group, removed, added_changed. rewrite map_to_list_empty. cbn [omap list_omap].
  rewrite app_nil_r. induction (map_to_list (properties conf)) as [|kv l IH]; [done|].
  cbn [omap list_omap fmap list_fmap]. unfold property_event at 1.
  rewrite lookup_empty. by rewrite IH.
Qed.

Lemma group_same c prev conf : properties conf = prev → group c prev conf = [].
Proof.
  intros <-. destruct (group c (properties conf) conf) as [|e g] eqn:Hg; [done|].
  assert (e ∈ group c (properties conf) conf) as He by (rewrite Hg; left).
  apply elem_of_group in He.
  destruct He as [(k & v & Hc & Hp & _)|[(k & v & old & Hc & Hp & Hne & _)
                                        |(k & old & Hp & Hc & _)]]; congruence.
Qed.

(** X1. A single snapshot is reported in full: the log is one ADDED
    event for each of its properties, in iteration order, with the
    snapshot's version and the property's value. *)
Theorem single_snapshot_all_added (self : AmbariAudit) conf :
  configs self = [conf] →
  audit_log (_config_diff self)
  = (λ kv, ADDED (version conf) (config_id self) kv.1 kv.2)
      <$> map_to_list (properties conf) ∧
  length (audit_log (_config_diff self)) = size (properties conf).
Proof.
  intros Hcs.
  assert (audit_log (_config_diff self)
          = (λ kv, ADDED (version conf) (config_id self) kv.1 kv.2)
              <$> map_to_list (properties conf)) as Hlog.
  { rewrite config_diff_groups, Hcs. cbn [groups concat].
    by rewrite app_nil_r, group_first. }
  split; [done|]. by rewrite Hlog, length_fmap, length_map_to_list.
Qed.

(** X2. The log only grows with the snapshot sequence: the log of a
    sequence is the beginning of the log of any longer sequence that
    starts with it. *)
Theorem log_of_prefix_is_prefix (self : AmbariAudit) cs cs' :
  audit_log (_config_diff (set_configs cs self))
  `prefix_of` audit_log (_config_diff (set_configs (cs ++ cs') self)).
Proof.
  rewrite !config_diff_set_configs, groups_app, concat_app. by apply prefix_app_r.
Qed.

(** X3. A snapshot whose properties are those of the snapshot before
    it adds nothing to the log, whatever its version. *)
Theorem repeated_snapshot_is_silent (self : AmbariAudit) cs conf conf' :
  last cs = Some conf → properties conf' = properties conf →
  audit_log (_config_diff (set_configs (cs ++ [conf']) self))
  = audit_log (_config_diff (set_configs cs self)).
Proof.
  intros Hlast Hsame. rewrite !config_diff_set_configs, groups_app, concat_app.
  rewrite Hlast. cbn [fmap option_fmap option_map default groups concat].
  by rewrite (group_same _ _ _ Hsame), !app_nil_r.
Qed.
End diff_engine_more.

Section replaying.
Implicit Types (prev m : gmap string scalar) (conf : ConfigSnapshot).
Implicit Types (e : gmap string scalar) (log : list (gmap string scalar)).
Implicit Types (cs : list ConfigSnapshot) (c key : string).

Lemma group_keys_NoDup c prev conf :
  NoDup ((λ e, e !! "key") <$> group c prev conf).
Proof.
  unfold group. rewrite fmap_app, added_changed_keys, removed_keys.
  assert (Inj (=) (=) (λ k : string, Some (SStr k))) as Hinj.
  { intros k1 k2 H. by injection H. }
  apply NoDup_app. split_and!.
  - apply (NoDup_fmap_2 _), NoDup_filter, NoDup_fst_map_to_list.
  - intros x Hx1 Hx2.
    apply list_elem_of_fmap in Hx1 as (k1 & -> & Hk1).
    apply list_elem_of_fmap in Hx2 as (k2 & Heq & Hk2).
    injection Heq as <-.
    apply list_elem_of_filter in Hk1 as [_ Hk1].
    apply list_elem_of_filter in Hk2 as [Hnone _].
    apply list_elem_of_fmap in Hk1 as ([k v] & -> & Hkv).
    apply elem_of_map_to_list in Hkv. simpl in Hnone. congruence.
  - apply (NoDup_fmap_2 _), NoDup_filter, NoDup_fst_map_to_list.
Qed.

Lemma apply_event_other m e key :
  e !! "key" ≠ Some (SStr key) → apply_event m e !! key = m !! key.
Proof.
  intros Hne. unfold apply_event.
  destruct (e !! "key") as [[z|k]|]; try done.
  destruct (e !! "action") as [a|]; [|done]. destruct (e !! "value") as [v|]; [|done].
  assert (k ≠ key) by congruence.
  case_bool_decide; by rewrite ?lookup_delete_ne, ?lookup_insert_ne.
Qed.

Lemma replay_other log : ∀ m key,
  Forall (λ e, e !! "key" ≠ Some (SStr key)) log → replay m log !! key = m !! key.
Proof.
  induction log as [|e log IH]; intros m key Hlog; [done|].
  apply Forall_cons in Hlog as [He Hlog]. cbn [replay foldl].
  fold (replay (apply_event m e) log). by rewrite IH, apply_event_other.
Qed.

(** With one event per key, the event for a key decides what the
    key maps to afterwards. *)
Lemma replay_hit log m e key action value :
  NoDup ((λ e, e !! "key") <$> log) → e ∈ log →
  e !! "key" = Some (SStr key) → e !! "action" = Some action →
  e !! "value" = Some value →
  replay m log !! key
  = if bool_decide (action = SStr "REMOVED") then None else Some value.
Proof.
  intros Hnd Hin Hkey Hact Hval. apply list_elem_of_split in Hin as (l1 & l2 & ->).
  rewrite fmap_app, fmap_cons in Hnd.
  apply NoDup_app in Hnd as (_ & _ & Hnd). apply NoDup_cons in Hnd as [Hnotin _].
  unfold replay. rewrite foldl_app. cbn [foldl].
  fold (replay (apply_event (foldl apply_event m l1) e) l2).
  rewrite replay_other.
  - unfold apply_event. rewrite Hkey, Hact, Hval.
    case_bool_decide; by rewrite ?lookup_delete_eq, ?lookup_insert_eq.
  - apply Forall_forall. intros e' He' Hk'. apply Hnotin.
    rewrite Hkey, <- Hk'. by apply (list_elem_of_fmap_2 (λ e, e !! "key")).
Qed.

Lemma replay_group c prev conf : replay prev (group c prev conf) = properties conf.
Proof.
  apply map_eq. intros key.
  pose proof (group_keys_NoDup c prev conf) as Hnd.
  destruct (properties conf !! key) as [val|] eqn:Hc;
    destruct (prev !! key) as [old|] eqn:Hp.
  - destruct (decide (old = val)) as [->|Hne].
    + rewrite replay_other; [congruence|].
      apply Forall_forall. intros e He Hkey. apply elem_of_group in He.
      destruct He as [(k & v & Hc' & Hp' & ->)|[(k & v & o & Hc' & Hp' & Hne & ->)
                                               |(k & o & Hp' & Hc' & ->)]];
        change (Some (SStr k) = Some (SStr key)) in Hkey;
        injection Hkey as ->; congruence.
    + by rewrite (replay_hit _ _ (CHANGED (version conf) c key val old) key
                    (SStr "CHANGED") val Hnd)
        by (try done; apply elem_of_group; right; left; eauto 10).
  - by rewrite (replay_hit _ _ (ADDED (version conf) c key val) key
                  (SStr "ADDED") val Hnd)
      by (try done; apply elem_of_group; left; eauto 10).
  - by rewrite (replay_hit _ _ (REMOVED (version conf) c key old) key
                  (SStr "REMOVED") old Hnd)
      by (try done; apply elem_of_group; right; right; eauto 10).
  - rewrite replay_other; [congruence|].
    apply Forall_forall. intros e He Hkey. apply elem_of_group in He.
    destruct He as [(k & v & Hc' & Hp' & ->)|[(k & v & o & Hc' & Hp' & Hne & ->)
                                             |(k & o & Hp' & Hc' & ->)]];
      change (Some (SStr k) = Some (SStr key)) in Hkey;
      injection Hkey as ->; congruence.
Qed.

Lemma replay_groups c cs : ∀ prev,
  replay prev (concat (groups c prev cs)) = default prev (properties <$> last cs).
Proof.
  induction cs as [|conf cs IH]; intros prev; [done|].
  cbn [groups concat]. unfold replay. rewrite foldl_app.
  fold (replay prev (group c prev conf)). rewrite replay_group.
  fold (replay (properties conf) (concat (groups c (properties conf) cs))).
  rewrite IH, last_cons. by destruct (last cs).
Qed.

(** X4. The log is a complete record of the changes: reading it back
    from the empty mapping, setting a key at every ADDED or CHANGED
    event and dropping it at every REMOVED event, ends with exactly
    the properties of the last snapshot (the empty mapping when there
    is no snapshot). *)
Theorem replay_log_gives_last_snapshot (self : AmbariAudit) :
  replay ∅ (audit_log (_config_diff self))
  = default ∅ (properties <$> last (configs self)).
Proof. rewrite config_diff_groups. apply replay_groups. Qed.

Lemma groups_versions c cs : ∀ prev,
  Forall (λ e, ∃ conf, conf ∈ cs ∧ e !! "version" = Some (version conf))
         (concat (groups c prev cs)).
Proof.
  induction cs as [|conf cs IH]; intros prev; [constructor|].
  cbn [groups concat]. apply Forall_app. split.
  - unfold group. apply Forall_app. split.
    + eapply Forall_impl; [apply added_changed_fields|].
      intros e [Hv _]. exists conf. split; [left|done].
    + eapply Forall_impl; [apply removed_fields|].
      intros e [Hv _]. exists conf. split; [left|done].
  - eapply Forall_impl; [apply IH|].
    intros e (conf' & Hin & Hv). exists conf'. split; [by right|done].
Qed.

Lemma groups_version_key_NoDup c cs : ∀ prev,
  NoDup (version <$> cs) →
  NoDup ((λ e, (e !! "version", e !! "key")) <$> concat (groups c prev cs)).
Proof.
  induction cs as [|conf cs IH]; intros prev Hnd; [constructor|].
  rewrite fmap_cons in Hnd. apply NoDup_cons in Hnd as [Hfresh Hnd].
  cbn [groups concat]. rewrite fmap_app. apply NoDup_app. split_and!.
  - apply (NoDup_fmap_1 snd). rewrite <- list_fmap_compose.
    apply group_keys_NoDup.
  - intros x Hx1 Hx2.
    apply list_elem_of_fmap in Hx1 as (e1 & -> & He1).
    apply list_elem_of_fmap in Hx2 as (e2 & Heq & He2).
    assert (e1 !! "version" = Some (version conf)) as Hv1.
    { unfold group in He1. apply elem_of_app in He1 as [He1|He1].
      - pose proof (added_changed_fields c prev conf) as H.
        rewrite Forall_forall in H. by apply H.
      - pose proof (removed_fields c prev conf) as H.
        rewrite Forall_forall in H. by apply H. }
    pose proof (groups_versions c cs (properties conf)) as Hvs.
    rewrite Forall_forall in Hvs. destruct (Hvs e2 He2) as (conf' & Hin & Hv2).
    apply Hfresh. apply list_elem_of_fmap. exists conf'. split; [|done].
    injection Heq as Hv _. congruence.
  - by apply IH.
Qed.

(** X5. When the snapshots have pairwise distinct versions, no two
    events of the log share both version and key: a key is reported
    at most once for each version. *)
Theorem one_event_per_version_and_key (self : AmbariAudit) :
  NoDup (version <$> configs self) →
  NoDup ((λ e, (e !! "version", e !! "key")) <$> audit_log (_config_diff self)).
Proof. intros Hnd. rewrite config_diff_groups. by apply groups_version_key_NoDup. Qed.

Lemma groups_nil_iff c cs : ∀ prev,
  concat (groups c prev cs) = [] ↔ Forall (λ conf, properties conf = prev) cs.
Proof.
  induction cs as [|conf cs IH]; intros prev; [by split; [constructor|]|].
  cbn [groups concat]. split.
  - intros H. apply app_eq_nil in H as [Hg Hrest].
    assert (properties conf = prev) as Hsame.
    { by rewrite <- (replay_group c prev conf), Hg. }
    constructor; [done|]. rewrite <- Hsame. by apply IH.
  - intros H. apply Forall_cons in H as [Hsame Hrest].
    rewrite (group_same _ _ _ Hsame). cbn [app]. rewrite Hsame. by apply IH.
Qed.

(** X6. The log is empty exactly when no snapshot has any property:
    one property in one snapshot is enough for an event. *)
Theorem log_empty_iff_no_property (self : AmbariAudit) :
  audit_log (_config_diff self) = []
  ↔ Forall (λ conf, properties conf = ∅) (configs self).
Proof. rewrite config_diff_groups. apply groups_nil_iff. Qed.
End replaying.

(** * Writing the log *)

Ltac run :=
  first [ rewrite bind_lift_Ok | rewrite bind_lift_Raise | rewrite bind_get_self
        | rewrite bind_modify | rewrite bind_session_get ];
  cbv beta.

Section output.
Implicit Types (self : AmbariAudit) (e d : gmap string scalar).
Implicit Types (log : list (gmap string scalar)) (lines : list string).

Lemma mapM_cons_Ok {A B : Type} (f : A → result B) (x : A) (l : list A) (y : B)
    (k : list B) :
  f x = Ok y → mapM f l = Ok k → mapM f (x :: l) = Ok (y :: k).
Proof. intros Hx Hl. cbn [mapM]. by rewrite Hx, bind_Ok, Hl. Qed.

Lemma mapM_cons_Ok_inv {A B : Type} (f : A → result B) (x : A) (l : list A)
    (ys : list B) :
  mapM f (x :: l) = Ok ys → ∃ y k, ys = y :: k ∧ f x = Ok y ∧ mapM f l = Ok k.
Proof.
  cbn [mapM]. intros H. apply bind_Ok_inv in H as (y & Hy & H).
  apply bind_Ok_inv in H as (k & Hk & H). injection H as <-. eauto.
Qed.

Lemma mapM_app_Ok {A B : Type} (f : A → result B) (l1 l2 : list A) (k1 k2 : list B) :
  mapM f l1 = Ok k1 → mapM f l2 = Ok k2 → mapM f (l1 ++ l2) = Ok (k1 ++ k2).
Proof.
  revert k1. induction l1 as [|x l1 IH]; intros k1 H1 H2.
  - by injection H1 as <-.
  - apply mapM_cons_Ok_inv in H1 as (y & k & -> & Hy & Hk).
    cbn [app]. apply mapM_cons_Ok; [done|]. by apply IH.
Qed.

Lemma mapM_Ok_length {A B : Type} (f : A → result B) (l : list A) : ∀ ys,
  mapM f l = Ok ys → length ys = length l.
Proof.
  induction l as [|x l IH]; intros ys H.
  - by injection H as <-.
  - apply mapM_cons_Ok_inv in H as (y & k & -> & _ & Hk). cbn. f_equal. by apply IH.
Qed.

Lemma group_renders c prev conf e :
  is_ascii c = true → encodable_snapshot conf →
  map_Forall (λ key val, is_ascii key = true ∧ encodable val = true) prev →
  e ∈ group c prev conf → ∃ s, _get_audit_log_string (PyDict e) = Ok s.
Proof.
  intros Ec [Ev Eprops] Eprev He. apply elem_of_group in He.
  destruct He as [(k & v & Hc & _ & ->)|[(k & v & o & Hc & Hp & _ & ->)
                                        |(k & o & Hp & _ & ->)]].
  - destruct (Eprops k v Hc) as [Ek Eval]. eexists.
    by apply (render_not_changed _ (SStr c) (version conf) (SStr "ADDED") (SStr k) v).
  - destruct (Eprops k v Hc) as [Ek Eval]. destruct (Eprev k o Hp) as [_ Eold].
    eexists. by apply (render_changed _ (SStr c) (version conf) (SStr k) v o).
  - destruct (Eprev k o Hp) as [Ek Eold]. eexists.
    by apply (render_not_changed _ (SStr c) (version conf) (SStr "REMOVED") (SStr k) o).
Qed.

Lemma mapM_Forall_Ok {A B : Type} (f : A → result B) (l : list A) :
  Forall (λ x, ∃ y, f x = Ok y) l → ∃ ys, mapM f l = Ok ys.
Proof.
  induction 1 as [|x l [y Hy] _ [ys Hys]]; [by exists []|].
  exists (y :: ys). by apply mapM_cons_Ok.
Qed.

Lemma groups_render c cs : ∀ prev,
  is_ascii c = true → Forall encodable_snapshot cs →
  map_Forall (λ key val, is_ascii key = true ∧ encodable val = true) prev →
  Forall (λ e, ∃ s, _get_audit_log_string (PyDict e) = Ok s) (concat (groups c prev cs)).
Proof.
  induction cs as [|conf cs IH]; intros prev Ec Ecs Eprev; [constructor|].
  apply Forall_cons in Ecs as [Econf Ecs]. cbn [groups concat].
  apply Forall_app. split.
  - apply Forall_forall. intros e. by apply group_renders.
  - apply IH; [done|done|]. by destruct Econf.
Qed.

Lemma config_diff_renders self :
  is_ascii (config_id self) = true → Forall encodable_snapshot (configs self) →
  ∃ lines, mapM (λ e, _get_audit_log_string (PyDict e)) (audit_log (_config_diff self))
           = Ok lines.
Proof.
  intros Ec Ecs. apply mapM_Forall_Ok. rewrite config_diff_groups.
  apply groups_render; [done|done|]. apply map_Forall_empty.
Qed.

(** ** The two loops of [_finalize] *)

Lemma for_each_print log : ∀ self lines,
  mapM (λ e, _get_audit_log_string (PyDict e)) log = Ok lines →
  for_each log (λ line, s ← lift (_get_audit_log_string (PyDict line)); print_line s)
    self
  = (Ok (), set_stdout (stdout self ++ lines) self).
Proof.
  induction log as [|e log IH]; intros self lines Hm.
  - injection Hm as <-. cbn. rewrite app_nil_r. by destruct self.
  - apply mapM_cons_Ok_inv in Hm as (s & k & -> & Hs & Hk).
    cbn [for_each]. rewrite (bind_M_Ok _ _ _ () (set_stdout (stdout self ++ [s]) self)).
    + rewrite (IH _ _ Hk). cbn. by rewrite <- app_assoc.
    + rewrite Hs. by run.
Qed.

Lemma for_each_write (fnout : string) log : ∀ self lines old,
  files self !! fnout = Some old →
  mapM (λ e, _get_audit_log_string (PyDict e)) log = Ok lines →
  for_each log (λ line, s ← lift (_get_audit_log_string (PyDict line));
                        write_line fnout s) self
  = (Ok (), set_files (<[fnout := old ++ lines]> (files self)) self).
Proof.
  induction log as [|e log IH]; intros self lines old Hold Hm.
  - injection Hm as <-. cbn. rewrite app_nil_r, insert_id by done. by destruct self.
  - apply mapM_cons_Ok_inv in Hm as (s & k & -> & Hs & Hk).
    cbn [for_each].
    rewrite (bind_M_Ok _ _ _ ()
               (set_files (<[fnout := old ++ [s]]> (files self)) self)).
    + rewrite (IH _ k (old ++ [s])); [|by apply lookup_insert_eq|done].
      cbn. by rewrite insert_insert_eq, <- app_assoc.
    + rewrite Hs. run. unfold write_line, modify. by rewrite Hold.
Qed.

Lemma open_file_Ok self (fnout : string) :
  open_w (session self) fnout = Ok () →
  open_file fnout self = (Ok (), set_files (<[fnout := []]> (files self)) self).
Proof. intros H. unfold open_file. run. rewrite H. by run. Qed.

Lemma open_file_Raise self (fnout : string) (err : pyerr) :
  open_w (session self) fnout = Raise err → open_file fnout self = (Raise err, self).
Proof. intros H. unfold open_file. run. rewrite H. by run. Qed.

Lemma finalize_print self lines :
  mapM (λ e, _get_audit_log_string (PyDict e)) (audit_log self) = Ok lines →
  _finalize "" self = (Ok (), set_stdout (stdout self ++ lines) self).
Proof. intros Hm. unfold _finalize. run. by apply for_each_print. Qed.

Lemma finalize_write self (fnout : string) lines :
  mapM (λ e, _get_audit_log_string (PyDict e)) (audit_log self) = Ok lines →
  fnout ≠ "" → open_w (session self) fnout = Ok () →
  _finalize fnout self = (Ok (), set_files (<[fnout := lines]> (files self)) self).
Proof.
  intros Hm Hne Hopen. unfold _finalize. run. rewrite bool_decide_true by done.
  rewrite (bind_M_Ok _ _ _ _ _ (open_file_Ok _ _ Hopen)).
  rewrite (for_each_write fnout _ _ lines []); [|by apply lookup_insert_eq|done].
  cbn. by rewrite insert_insert_eq.
Qed.

(** X7. When every event of the log renders: without a file name
    [_finalize] adds the rendered lines, one per event and in order,
    to the standard output and touches no file; with the name of a
    file that opens it leaves in that file exactly these lines,
    whatever the file held before, and touches neither the other
    files nor the standard output.  When the file does not open,
    [_finalize] raises what [open] raised and nothing is written. *)
Theorem finalize_writes_rendered_lines self (fnout : string) lines :
  mapM (λ e, _get_audit_log_string (PyDict e)) (audit_log self) = Ok lines →
  (fnout = "" →
   _finalize fnout self = (Ok (), set_stdout (stdout self ++ lines) self)) ∧
  (fnout ≠ "" → open_w (session self) fnout = Ok () →
   _finalize fnout self = (Ok (), set_files (<[fnout := lines]> (files self)) self)) ∧
  (fnout ≠ "" → ∀ err, open_w (session self) fnout = Raise err →
   _finalize fnout self = (Raise err, self)).
Proof.
  intros Hm. split_and!.
  - intros ->. by apply finalize_print.
  - by apply finalize_write.
  - intros Hne err Hopen. unfold _finalize. run. rewrite bool_decide_true by done.
    by rewrite (bind_M_Raise _ _ _ _ _ (open_file_Raise _ _ _ Hopen)).
Qed.

(** X8. When the configuration type and the versions, keys and
    values of all snapshots can be encoded (numbers, and texts of
    ASCII characters only), every event of the log the engine computes
    renders, to one line each; [_finalize] after [_config_diff] then
    raises nothing, be it to the standard output or to a file that
    opens. *)
Theorem encodable_log_is_written self (fnout : string) :
  is_ascii (config_id self) = true →
  Forall encodable_snapshot (configs self) →
  fnout = "" ∨ open_w (session self) fnout = Ok () →
  ∃ lines,
    mapM (λ e, _get_audit_log_string (PyDict e)) (audit_log (_config_diff self))
    = Ok lines ∧
    length lines = length (audit_log (_config_diff self)) ∧
    (_finalize fnout (_config_diff self)).1 = Ok ().
Proof.
  intros Ec Ecs Hopen.
  destruct (config_diff_renders self Ec Ecs) as [lines Hm]. exists lines. split_and!.
  - done.
  - by apply mapM_Ok_length in Hm.
  - destruct (decide (fnout = "")) as [->|Hne].
    + by rewrite (finalize_print _ _ Hm).
    + destruct Hopen as [?|Hopen]; [done|].
      rewrite (finalize_write _ _ _ Hm Hne); [done|].
      by rewrite config_diff_unfold.
Qed.

Lemma subscript_missing d k : d !! k = None → subscript (PyDict d) k = Raise (KeyError k).
Proof. intros H. unfold subscript. by apply getitem_None. Qed.

Lemma bind_Raise {A B : Type} (err : pyerr) (f : A → result B) :
  Raise err ≫= f = Raise err.
Proof. done. Qed.

(** X9. A non-empty dictionary that lacks a field the renderer reads
    makes it raise [KeyError] for the first such field, in the order
    the renderer reads them: action, type, version, key, value and,
    for a CHANGED event only, old_value. *)
Theorem render_missing_field d (pre post : list string) (field : string) :
  d ≠ ∅ →
  ["action"; "type"; "version"; "key"; "value"]
    ++ (if bool_decide (d !! "action" = Some (SStr "CHANGED"))
        then ["old_value"] else [])
  = pre ++ field :: post →
  Forall (λ k, is_Some (d !! k)) pre →
  d !! field = None →
  _get_audit_log_string (PyDict d) = Raise (KeyError field).
Proof.
  intros Hne Hsplit Hpre Hnone. unfold _get_audit_log_string.
  cbn [truthy]. rewrite bool_decide_true by done. cbn [negb].
  destruct pre as [|f1 pre]; cbn [app] in Hsplit.
  { injection Hsplit as <- _. by rewrite (subscript_missing _ _ Hnone). }
  injection Hsplit as <- Hsplit. apply Forall_cons in Hpre as [[a Ha] Hpre].
  rewrite (subscript_lookup _ _ _ Ha), bind_Ok. rewrite Ha in Hsplit.
  destruct (decide (a = SStr "CHANGED")) as [->|Hact]; cycle 1.
  - rewrite bool_decide_false in Hsplit by congruence.
    rewrite bool_decide_true by done.
    repeat (destruct pre as [|? pre]; cbn [app] in Hsplit;
            [ injection Hsplit as <- _;
              by rewrite (subscript_missing _ _ Hnone), ?bind_Raise
            | injection Hsplit as <- Hsplit;
              let Hf := fresh in
              apply Forall_cons in Hpre as [[? Hf] Hpre];
              rewrite (subscript_lookup _ _ _ Hf), !bind_Ok ]).
    by destruct pre.
  - rewrite bool_decide_true in Hsplit by done.
    rewrite bool_decide_false by (by intros []).
    repeat (destruct pre as [|? pre]; cbn [app] in Hsplit;
            [ injection Hsplit as <- _;
              by rewrite (subscript_missing _ _ Hnone), ?bind_Raise
            | injection Hsplit as <- Hsplit;
              let Hf := fresh in
              apply Forall_cons in Hpre as [[? Hf] Hpre];
              rewrite (subscript_lookup _ _ _ Hf), !bind_Ok ]).
    by destruct pre.
Qed.
End output.

(** * More on the fetch loops *)

Section fetching_more.
Implicit Types (self : AmbariAudit) (cversion : gmap string scalar).
Implicit Types (l : list (gmap string scalar)).

Lemma for_each_app {A : Type} (l1 l2 : list A) (body : A → M unit) self self1 :
  for_each l1 body self = (Ok (), self1) →
  for_each (l1 ++ l2) body self = for_each l2 body self1.
Proof.
  revert self. induction l1 as [|x l1 IH]; intros self H.
  - by injection H as <-.
  - cbn [app for_each] in *. unfold mbind, M_bind in *.
    destruct (body x self) as [[[]|err] self0]; [|done]. by apply IH.
Qed.

Lemma retrieve_configs_unfold self :
  _retrieve_configs self = for_each (config_versions self) retrieve_config self.
Proof. done. Qed.

(** X10. [_retrieve_configs] appends: called a second time on the same
    object, with the same answers from the server, it requests every
    href again and leaves every fetched snapshot in [configs] twice. *)
Theorem retrieve_configs_twice_duplicates self :
  Forall (fetchable (session self)) (config_versions self) →
  ∃ self1 self2,
    _retrieve_configs self = (Ok (), self1) ∧
    _retrieve_configs self1 = (Ok (), self2) ∧
    configs self2
    = configs self ++ omap (fetched (session self)) (config_versions self)
                   ++ omap (fetched (session self)) (config_versions self) ∧
    requested self2
    = requested self ++ omap href_of (config_versions self)
                     ++ omap href_of (config_versions self).
Proof.
  intros Hall. eexists _, _. split_and!.
  - rewrite retrieve_configs_unfold. by apply for_each_retrieve_config.
  - rewrite retrieve_configs_unfold. by apply for_each_retrieve_config.
  - cbn. by rewrite <- app_assoc.
  - cbn. by rewrite <- app_assoc.
Qed.

(** X11. A version answered with status 200 but without a first item
    ends the loop with an exception: [ValueError] for a body that is
    not JSON, [KeyError] for an object without ['items'], [IndexError]
    for an empty list of items.  The snapshots fetched before it stay
    in [configs], its own request has been issued, and the versions
    after it are never requested. *)
Theorem retrieve_configs_aborts_on_bad_body self l1 cversion l2 href r err :
  config_versions self = l1 ++ cversion :: l2 →
  Forall (fetchable (session self)) l1 →
  cversion !! "href" = Some href →
  config_response (session self) (str href) = Ok r →
  status_code r = 200 →
  (body r = Malformed ∧ err = ValueError) ∨
  (body r = Object None ∧ err = KeyError "items") ∨
  (body r = Object (Some []) ∧ err = IndexError) →
  _retrieve_configs self
  = (Raise err,
     set_configs (configs self ++ omap (fetched (session self)) l1)
       (set_requested (requested self ++ omap href_of l1 ++ [GET (str href) []]) self)).
Proof.
  intros Hvs Hl1 Hhref Hr Hst Hbody. rewrite retrieve_configs_unfold, Hvs.
  rewrite (for_each_app _ _ _ _ _ (for_each_retrieve_config l1 self Hl1)).
  cbn [for_each].
  rewrite (bind_M_Raise _ _ _ err
             (set_configs (configs self ++ omap (fetched (session self)) l1)
                (set_requested (requested self ++ omap href_of l1 ++ [GET (str href) []])
                   self))); [done|].
  unfold retrieve_config. rewrite (getitem_Some _ _ _ Hhref). do 3 run.
  cbn [session set_configs set_requested]. rewrite Hr. run.
  rewrite bool_decide_false by (by intros []). unfold json.
  destruct Hbody as [[-> ->]|[[-> ->]|[-> ->]]]; repeat run; cbn;
    by rewrite <- app_assoc.
Qed.

(** X12. A version descriptor without ['href'] ends the loop with
    [KeyError] before any request is made for it; the snapshots
    fetched before it stay in [configs]. *)
Theorem retrieve_configs_aborts_on_missing_href self l1 cversion l2 :
  config_versions self = l1 ++ cversion :: l2 →
  Forall (fetchable (session self)) l1 →
  cversion !! "href" = None →
  _retrieve_configs self
  = (Raise (KeyError "href"),
     set_configs (configs self ++ omap (fetched (session self)) l1)
       (set_requested (requested self ++ omap href_of l1) self)).
Proof.
  intros Hvs Hl1 Hhref. rewrite retrieve_configs_unfold, Hvs.
  rewrite (for_each_app _ _ _ _ _ (for_each_retrieve_config l1 self Hl1)).
  cbn [for_each].
  rewrite (bind_M_Raise _ _ _ (KeyError "href")
             (set_configs (configs self ++ omap (fetched (session self)) l1)
                (set_requested (requested self ++ omap href_of l1) self))); [done|].
  unfold retrieve_config. rewrite (getitem_None _ _ Hhref). by run.
Qed.
End fetching_more.

(** * More on the version sorter *)

Section version_sorter_more.
Implicit Types (item : gmap string scalar) (items out : list (gmap string scalar)).
Implicit Types (keyed : list (scalar * gmap string scalar)) (key : string).

Lemma insert_keyed_head {A : Type} (x : scalar * A) (l : list (scalar * A)) :
  StronglySorted keyed_le (x :: l) → insert_keyed x l = x :: l.
Proof.
  intros Hs. apply StronglySorted_inv in Hs as [_ Hx].
  destruct l as [|y l]; [done|]. apply Forall_cons in Hx as [Hxy _].
  unfold keyed_le in Hxy. cbn. by rewrite Hxy.
Qed.

Lemma sort_keyed_id {A : Type} (l : list (scalar * A)) :
  StronglySorted keyed_le l → foldr insert_keyed [] l = l.
Proof.
  induction l as [|x l IH]; intros Hs; [done|].
  cbn [foldr]. rewrite IH by (by apply StronglySorted_inv in Hs as [? _]).
  by apply insert_keyed_head.
Qed.

Lemma decorate_decorated key keyed :
  Forall (decorated key) keyed →
  mapM (λ item, k ← getitem item key; Ok (k, item)) keyed.*2 = Ok keyed.
Proof.
  induction 1 as [|[k item] keyed Hd _ IH]; [done|].
  rewrite fmap_cons. apply mapM_cons_Ok; [|done].
  unfold decorated in Hd. cbn in *. by rewrite (getitem_Some _ _ _ Hd).
Qed.

Lemma decorate_Ok_inv key items : ∀ keyed,
  mapM (λ item, k ← getitem item key; Ok (k, item)) items = Ok keyed →
  keyed.*2 = items ∧ Forall (decorated key) keyed.
Proof.
  induction items as [|item items IH]; intros keyed Hm.
  - by injection Hm as <-.
  - apply mapM_cons_Ok_inv in Hm as ([k item'] & keyed' & -> & Hk & Hm).
    apply bind_Ok_inv in Hk as (k' & Hk & Heq). injection Heq as <- <-.
    destruct (IH _ Hm) as [Hsnd Hdec]. split; [by rewrite fmap_cons, Hsnd|].
    constructor; [|done]. unfold decorated, getitem in *. cbn.
    destruct (item !! key); [|done]. by injection Hk as <-.
Qed.

Lemma keyed_sorted_of_items key keyed :
  Forall (decorated key) keyed → StronglySorted (key_le key) keyed.*2 →
  StronglySorted keyed_le keyed.
Proof.
  induction 1 as [|p keyed Hd Hdec IH]; intros Hs; [constructor|].
  rewrite fmap_cons in Hs. apply StronglySorted_inv in Hs as [Hs Hp].
  constructor; [by apply IH|].
  apply Forall_forall. intros q Hq.
  pose proof (proj1 (Forall_forall _ _) Hp q.2 (list_elem_of_fmap_2 snd _ _ Hq)) as Hle.
  pose proof (proj1 (Forall_forall _ _) Hdec q Hq) as Hdq.
  unfold key_le, decorated, keyed_le in *. by rewrite Hd, Hdq in Hle.
Qed.

Lemma version_sorter_sorted_id key items :
  Forall (λ item, is_Some (item !! key)) items →
  StronglySorted (key_le key) items →
  version_sorter key items = Ok items.
Proof.
  intros Hkeys Hs. destruct (decorate_Ok key items Hkeys) as (keyed & Hm & Hsnd & Hdec).
  unfold version_sorter, sorted. rewrite Hm, bind_Ok.
  rewrite sort_keyed_id; [by rewrite Hsnd|].
  apply (keyed_sorted_of_items key); [done|by rewrite Hsnd].
Qed.

(** X13. The sorter leaves a list that is already in ascending order
    of the key as it is, and it is idempotent: sorting its own output
    again returns that output. *)
Theorem version_sorter_idempotent key items :
  (Forall (λ item, is_Some (item !! key)) items →
   StronglySorted (key_le key) items →
   version_sorter key items = Ok items) ∧
  (∀ out, version_sorter key items = Ok out → version_sorter key out = Ok out).
Proof.
  split; [apply version_sorter_sorted_id|].
  intros out Hout. unfold version_sorter, sorted in Hout.
  apply bind_Ok_inv in Hout as (keyed & Hm & Hout). injection Hout as <-.
  apply decorate_Ok_inv in Hm as [Hsnd Hdec].
  assert (Forall (decorated key) (foldr insert_keyed [] keyed)) as Hdec'.
  { by rewrite sort_keyed_perm. }
  unfold version_sorter, sorted. rewrite (decorate_decorated _ _ Hdec'), bind_Ok.
  by rewrite sort_keyed_id by apply sort_keyed_sorted.
Qed.

(** X14. A listing with items, at any status: when every item has
    the sort key, [_retrieve_config_versions] replaces
    [config_versions], whatever it held, by a permutation of the
    items in ascending order of the key; when an item lacks the key,
    it raises [KeyError] and leaves [config_versions] as it was.
    Either way the listing is the one request issued. *)
Theorem retrieve_config_versions_contract self r item items :
  list_response (session self) [("type", config_id self)] = Ok r →
  body r = Object (Some (item :: items)) →
  (Forall (λ item, is_Some (item !! sort_version_by self)) (item :: items) →
   ∃ vs, _retrieve_config_versions self
         = (Ok (), set_config_versions vs
                     (set_requested
                        (requested self ++ [listing_request self])
                        self)) ∧
         vs ≡ₚ item :: items ∧
         StronglySorted (key_le (sort_version_by self)) vs) ∧
  (∀ item', item' ∈ item :: items → item' !! sort_version_by self = None →
   _retrieve_config_versions self
   = (Raise (KeyError (sort_version_by self)),
      set_requested (requested self ++ [listing_request self]) self)).
Proof.
  intros Hr Hbody. rewrite (retrieve_config_versions_sorts _ _ _ _ Hr Hbody). split.
  - intros Hkeys.
    destruct (decorate_Ok _ _ Hkeys) as (keyed & Hm & Hsnd & Hdec).
    exists (foldr insert_keyed [] keyed).*2.
    unfold version_sorter, sorted. rewrite Hm, bind_Ok. split_and!.
    + done.
    + by rewrite sort_keyed_perm, Hsnd.
    + apply sorted_items; [apply sort_keyed_sorted|by rewrite sort_keyed_perm].
  - intros item' Hin Hnone. unfold version_sorter, sorted.
    by rewrite (decorate_Raise _ _ _ Hin Hnone).
Qed.
End version_sorter_more.

(** * The whole run *)

Section whole_run.
Implicit Types (self : AmbariAudit) (fnout : string).

Lemma bind_M_Ok_inv {A B : Type} (m : M A) (f : A → M B) self (b : B) self' :
  (m ≫= f) self = (Ok b, self') →
  ∃ a self1, m self = (Ok a, self1) ∧ f a self1 = (Ok b, self').
Proof.
  unfold mbind, M_bind. destruct (m self) as [[a|err] self1]; [eauto|done].
Qed.

(** ** What a run that ends well has gone through *)

Lemma retrieve_config_versions_Ok_inv self self1 :
  _retrieve_config_versions self = (Ok (), self1) →
  ∃ r, list_response (session self) [("type", config_id self)] = Ok r ∧
       self1 = set_config_versions (config_versions self1)
                 (set_requested (requested self ++ [listing_request self]) self) ∧
       match body r with
       | Malformed => False
       | Object (Some (item :: items)) =>
           version_sorter (sort_version_by self) (item :: items)
           = Ok (config_versions self1)
       | Object _ => config_versions self1 = config_versions self
       end.
Proof.
  destruct (list_response (session self) [("type", config_id self)]) as [r|err] eqn:Hr.
  - rewrite (retrieve_config_versions_by_body _ _ Hr). intros H. exists r.
    split; [done|].
    destruct (body r) as [|[[|item items]|]]; try done;
      try (injection H as <-; by destruct self).
    destruct (version_sorter _ _) as [vs|err]; [|done]. by injection H as <-.
  - unfold _retrieve_config_versions. do 2 run. rewrite Hr. by run.
Qed.

Lemma retrieve_config_session cversion self :
  session (retrieve_config cversion self).2 = session self.
Proof.
  unfold retrieve_config. destruct (cversion !! "href") as [href|] eqn:Hhref.
  - rewrite (getitem_Some _ _ _ Hhref). do 3 run.
    destruct (config_response _ _) as [r|err]; [|by run]. run.
    case_bool_decide; [done|]. unfold json.
    destruct (body r) as [|[[|conf rest]|]]; by repeat run.
  - rewrite (getitem_None _ _ Hhref). by run.
Qed.

Lemma retrieve_config_Ok_inv cversion self self1 :
  retrieve_config cversion self = (Ok (), self1) → fetchable (session self) cversion.
Proof.
  unfold retrieve_config, fetchable.
  destruct (cversion !! "href") as [href|] eqn:Hhref.
  - rewrite (getitem_Some _ _ _ Hhref). do 3 run. cbn [session set_requested].
    destruct (config_response (session self) (str href)) as [r|err] eqn:Hr; [|by run].
    run. intros H. exists href, r. split_and!; [done..|]. intros Hst.
    rewrite bool_decide_false in H by (by intros []). unfold json in H.
    destruct (body r) as [|[[|conf rest]|]]; try done. eauto.
  - rewrite (getitem_None _ _ Hhref). by run.
Qed.

Lemma for_each_retrieve_config_Ok_inv (l : list (gmap string scalar)) : ∀ self self1,
  for_each l retrieve_config self = (Ok (), self1) →
  Forall (fetchable (session self)) l.
Proof.
  induction l as [|cversion l IH]; intros self self1 H; [constructor|].
  cbn [for_each] in H. apply bind_M_Ok_inv in H as ([] & self0 & Hstep & Hrest).
  constructor; [by eapply retrieve_config_Ok_inv|].
  apply IH in Hrest. pose proof (retrieve_config_session cversion self) as Hs.
  rewrite Hstep in Hs. cbn in Hs. by rewrite <- Hs.
Qed.

Lemma for_each_print_Ok_inv (log : list (gmap string scalar)) : ∀ self self1,
  for_each log (λ line, s ← lift (_get_audit_log_string (PyDict line)); print_line s)
    self = (Ok (), self1) →
  ∃ lines, mapM (λ e, _get_audit_log_string (PyDict e)) log = Ok lines.
Proof.
  induction log as [|e log IH]; intros self self1 H; [by exists []|].
  cbn [for_each] in H. apply bind_M_Ok_inv in H as ([] & self0 & Hstep & Hrest).
  destruct (_get_audit_log_string (PyDict e)) as [s|err] eqn:Hs;
    [|by rewrite bind_lift_Raise in Hstep].
  destruct (IH _ _ Hrest) as [lines Hm]. exists (s :: lines). by apply mapM_cons_Ok.
Qed.

Lemma for_each_write_Ok_inv fnout (log : list (gmap string scalar)) : ∀ self self1,
  for_each log (λ line, s ← lift (_get_audit_log_string (PyDict line));
                        write_line fnout s) self = (Ok (), self1) →
  ∃ lines, mapM (λ e, _get_audit_log_string (PyDict e)) log = Ok lines.
Proof.
  induction log as [|e log IH]; intros self self1 H; [by exists []|].
  cbn [for_each] in H. apply bind_M_Ok_inv in H as ([] & self0 & Hstep & Hrest).
  destruct (_get_audit_log_string (PyDict e)) as [s|err] eqn:Hs;
    [|by rewrite bind_lift_Raise in Hstep].
  destruct (IH _ _ Hrest) as [lines Hm]. exists (s :: lines). by apply mapM_cons_Ok.
Qed.

Lemma finalize_Ok_inv self fnout self1 :
  _finalize fnout self = (Ok (), self1) →
  ∃ lines,
    mapM (λ e, _get_audit_log_string (PyDict e)) (audit_log self) = Ok lines ∧
    self1 = if bool_decide (fnout ≠ "")
            then set_files (<[fnout := lines]> (files self)) self
            else set_stdout (stdout self ++ lines) self.
Proof.
  intros H. case_bool_decide as Hne.
  - assert (open_w (session self) fnout = Ok ()) as Hopen.
    { unfold _finalize in H. rewrite bind_get_self in H. cbv beta in H.
      rewrite bool_decide_true in H by done.
      destruct (open_w (session self) fnout) as [[]|err] eqn:Hopen; [done|].
      by rewrite (bind_M_Raise _ _ _ _ _ (open_file_Raise _ _ _ Hopen)) in H. }
    assert (∃ lines, mapM (λ e, _get_audit_log_string (PyDict e)) (audit_log self)
                     = Ok lines) as [lines Hm].
    { unfold _finalize in H. rewrite bind_get_self in H. cbv beta in H.
      rewrite bool_decide_true in H by done.
      rewrite (bind_M_Ok _ _ _ _ _ (open_file_Ok _ _ Hopen)) in H.
      by apply for_each_write_Ok_inv in H. }
    exists lines. split; [done|].
    rewrite (finalize_write _ _ _ Hm Hne Hopen) in H. by injection H.
  - subst fnout.
    assert (∃ lines, mapM (λ e, _get_audit_log_string (PyDict e)) (audit_log self)
                     = Ok lines) as [lines Hm].
    { unfold _finalize in H. rewrite bind_get_self in H. cbv beta in H.
      by apply for_each_print_Ok_inv in H. }
    exists lines. split; [done|]. rewrite (finalize_print _ _ Hm) in H. by injection H.
Qed.

(** X15. The whole run, whenever it ends without an exception: the
    listing was answered with a well-formed body; the list of
    versions is the sorted list of its items, or is left as it was
    when there are none; the listing and then every href of that list
    were requested, once each and in that order; [configs] has gained
    exactly the snapshots fetched with status 200, in that order; the
    log is the diff of [configs]; and what was printed, or was left in
    the file, are the rendered lines of that log. *)
Theorem execute_reports_fetched_snapshots self fnout self' :
  execute fnout self = (Ok (), self') →
  ∃ r lines,
    list_response (session self) [("type", config_id self)] = Ok r ∧
    match body r with
    | Malformed => False
    | Object (Some (item :: items)) =>
        version_sorter (sort_version_by self) (item :: items)
        = Ok (config_versions self')
    | Object _ => config_versions self' = config_versions self
    end ∧
    requested self'
    = requested self ++ [listing_request self] ++ omap href_of (config_versions self') ∧
    configs self'
    = configs self ++ omap (fetched (session self)) (config_versions self') ∧
    audit_log self' = concat (groups (config_id self) ∅ (configs self')) ∧
    mapM (λ e, _get_audit_log_string (PyDict e)) (audit_log self') = Ok lines ∧
    if bool_decide (fnout ≠ "")
    then files self' = <[fnout := lines]> (files self) ∧ stdout self' = stdout self
    else stdout self' = stdout self ++ lines ∧ files self' = files self.
Proof.
  intros H. unfold execute in H.
  apply bind_M_Ok_inv in H as ([] & self1 & Hlist & H).
  apply bind_M_Ok_inv in H as ([] & self2 & Hfetch & H).
  rewrite bind_modify in H. cbv beta in H.
  apply retrieve_config_versions_Ok_inv in Hlist as (r & Hr & Hself1 & Hbody).
  rewrite retrieve_configs_unfold in Hfetch.
  pose proof (for_each_retrieve_config_Ok_inv _ _ _ Hfetch) as Hall.
  rewrite (for_each_retrieve_config _ _ Hall) in Hfetch. injection Hfetch as <-.
  apply finalize_Ok_inv in H as (lines & Hm & ->).
  rewrite config_diff_unfold in Hm |- *.
  assert (session self1 = session self) as Hs by (by rewrite Hself1).
  assert (requested self1 = requested self ++ [listing_request self]) as Hrq
    by (by rewrite Hself1).
  assert (configs self1 = configs self) as Hcs by (by rewrite Hself1).
  assert (config_id self1 = config_id self) as Hid by (by rewrite Hself1).
  assert (files self1 = files self) as Hfs by (by rewrite Hself1).
  assert (stdout self1 = stdout self) as Hout by (by rewrite Hself1).
  exists r, lines.
  case_bool_decide; cbn in Hm |- *;
    rewrite ?Hs, ?Hrq, ?Hcs, ?Hid, ?Hfs, ?Hout, <- ?app_assoc in *;
    by split_and!.
Qed.

Lemma retrieve_configs_nil self :
  config_versions self = [] → _retrieve_configs self = (Ok (), self).
Proof. intros H. rewrite retrieve_configs_unfold. by rewrite H. Qed.

(** X16. The whole run when the listing has no items (no ['items']
    or an empty list, at any status) on a fresh object, to the
    standard output or to a file that opens: nothing is fetched, the
    log is empty, nothing is printed, and a file that was asked for is
    left empty. *)
Theorem execute_without_versions self r fnout :
  config_versions self = [] → configs self = [] →
  list_response (session self) [("type", config_id self)] = Ok r →
  body r = Object None ∨ body r = Object (Some []) →
  fnout = "" ∨ open_w (session self) fnout = Ok () →
  ∃ self',
    execute fnout self = (Ok (), self') ∧
    requested self' = requested self ++ [listing_request self] ∧
    configs self' = [] ∧ audit_log self' = [] ∧ stdout self' = stdout self ∧
    files self' = if bool_decide (fnout ≠ "") then <[fnout := []]> (files self)
                  else files self.
Proof.
  intros Hvs Hcs Hr Hbody Hopen.
  pose proof (retrieve_config_versions_no_items _ _ Hr Hbody) as Hlist.
  assert (execute fnout self
          = _finalize fnout
              (set_audit_log []
                 (set_requested (requested self ++ [listing_request self]) self))) as ->.
  { unfold execute. rewrite (bind_M_Ok _ _ _ _ _ Hlist).
    rewrite (bind_M_Ok _ _ _ _ _ (retrieve_configs_nil (set_requested _ self) Hvs)).
    run. rewrite config_diff_unfold. cbn [configs set_requested]. by rewrite Hcs. }
  set (self0 := set_audit_log []
                  (set_requested (requested self ++ [listing_request self]) self)).
  assert (mapM (λ e, _get_audit_log_string (PyDict e)) (audit_log self0) = Ok [])
    as Hm by done.
  destruct (decide (fnout = "")) as [->|Hne].
  - rewrite (finalize_print self0 [] Hm). eexists. split; [reflexivity|].
    cbn. rewrite ?app_nil_r. by split_and!.
  - destruct Hopen as [?|Hopen]; [done|].
    rewrite (finalize_write self0 fnout [] Hm Hne Hopen). eexists.
    split; [reflexivity|]. rewrite bool_decide_true by done. cbn. by split_and!.
Qed.
End whole_run.

(** * The command line *)

Section command_line.
Implicit Types (argv args : list string) (opts : list (string * string)).
Implicit Types (a : MainArgs).

Lemma do_shorts_short_names optstring shortopts args : ∀ new taken,
  do_shorts optstring shortopts args = Parsed (new, taken) → Forall short_name new.
Proof.
  induction optstring as [|opt optstring IH]; intros new taken H; cbn in H.
  - injection H as <- _. constructor.
  - destruct (short_has_arg opt shortopts) as [[]|msg]; [| |done].
    + destruct (String.eqb optstring ""); [destruct args; [done|]|];
        injection H as <- _; by repeat constructor.
    + destruct (do_shorts optstring shortopts args) as [[new' taken']|msg] eqn:Hrec;
        [|done].
      injection H as <- _. constructor; [done|]. by eapply IH.
Qed.

Lemma getopt_from_short_names shortopts longopts (n : nat) : ∀ args opts opts' args',
  (length args ≤ n)%nat →
  Forall (λ arg, String.prefix "--" arg = false) args →
  Forall short_name opts →
  getopt_from opts args shortopts longopts = Parsed (opts', args') →
  Forall short_name opts'.
Proof.
  induction n as [|n IH]; intros args opts opts' args' Hlen Hargs Hopts H.
  - destruct args; [|cbn in Hlen; lia]. by injection H as <- _.
  - destruct args as [|arg rest]; [by injection H as <- _|].
    apply Forall_cons in Hargs as [Harg Hrest]. cbn [getopt_from] in H.
    cbn [length] in Hlen.
    destruct (String.prefix "-" arg && negb (String.eqb arg "-"));
      [|by injection H as <- _].
    destruct (String.eqb arg "--") eqn:Hdd.
    { apply String.eqb_eq in Hdd as ->. done. }
    rewrite Harg in H.
    destruct (do_shorts _ shortopts rest) as [[new taken]|msg] eqn:Hshorts; [|done].
    assert (Forall short_name (opts ++ new)) as Hopts'.
    { apply Forall_app. split; [done|]. by eapply do_shorts_short_names. }
    destruct rest as [|next rest'].
    + eapply (IH []); [cbn; lia|done|exact Hopts'|exact H].
    + destruct taken.
      * apply Forall_cons in Hrest as [_ Hrest'].
        eapply (IH rest'); [cbn in Hlen; lia|done|exact Hopts'|exact H].
      * eapply (IH (next :: rest')); [lia|done|exact Hopts'|exact H].
Qed.

Lemma short_name_not_config (opt : string) :
  String.length opt = 2%nat → is_one_of opt ["-cfg"; "--config"] = false.
Proof.
  intros Hlen. unfold is_one_of. cbn [existsb].
  destruct (String.eqb opt "-cfg") eqn:H1; [by apply String.eqb_eq in H1 as ->|].
  destruct (String.eqb opt "--config") eqn:H2; [by apply String.eqb_eq in H2 as ->|].
  done.
Qed.

Lemma get_all_arguments_short_names opts : ∀ a a',
  Forall short_name opts → get_all_arguments opts a = Some a' → config a' = config a.
Proof.
  induction opts as [|[opt arg] opts IH]; intros a a' Hshort H.
  - by injection H as <-.
  - apply Forall_cons in Hshort as [Hopt Hshort]. cbn [get_all_arguments] in H.
    rewrite (short_name_not_config opt Hopt) in H.
    repeat (destruct (is_one_of opt _); [by rewrite (IH _ _ Hshort H) || done|]).
    by apply IH.
Qed.

(** X17. The configuration type can only be given with a long
    option.  The short form [-cfg] does not exist for the parser,
    which reads it as [-c] with the value [fg]; so a command line in
    which no argument starts with two dashes never gets through
    [main]: it ends in [sys.exit]. *)
Theorem main_needs_long_config argv :
  Forall (λ arg, String.prefix "--" arg = false) argv →
  ∃ code, outcome (main argv) = SystemExit code.
Proof.
  intros Hargv. unfold main, getopt.
  destruct (getopt_from [] argv _ _) as [[opts args]|msg] eqn:Hget; [|by eexists].
  assert (Forall short_name opts) as Hshort.
  { eapply (getopt_from_short_names _ _ (length argv) argv []);
      [done|done|constructor|exact Hget]. }
  destruct (get_all_arguments opts _) as [a|] eqn:Hall; [|by eexists].
  apply get_all_arguments_short_names in Hall; [|done]. cbn in Hall.
  rewrite Hall. cbn [String.eqb]. rewrite !orb_true_r. by eexists.
Qed.

(** X18. [main] returns only complete arguments: when it returns,
    target, user, cluster and configuration type are all non-empty
    and nothing was printed or logged; in every other case it ends in
    [sys.exit] with code 0 or 2. *)
Theorem main_returns_complete_arguments argv :
  match outcome (main argv) with
  | Return a =>
      target a ≠ "" ∧ user a ≠ "" ∧ cluster a ≠ "" ∧ config a ≠ "" ∧
      printed (main argv) = [] ∧ logged (main argv) = []
  | SystemExit code => code = 0 ∨ code = 2
  end.
Proof.
  unfold main. destruct (getopt argv _ _) as [[opts args]|msg]; [|by right].
  destruct (get_all_arguments opts _) as [a|]; [|by left].
  destruct (String.eqb (target a) "") eqn:Ht; [by right|].
  destruct (String.eqb (user a) "") eqn:Hu; [by right|].
  destruct (String.eqb (cluster a) "") eqn:Hc; [by right|].
  destruct (String.eqb (config a) "") eqn:Hcfg; [by right|].
  cbn. apply String.eqb_neq in Ht, Hu, Hc, Hcfg. by split_and!.
Qed.

Lemma get_all_arguments_help opts : ∀ a,
  (∃ arg, ("-h", arg) ∈ opts ∨ ("--help", arg) ∈ opts) →
  get_all_arguments opts a = None.
Proof.
  induction opts as [|[opt arg'] opts IH]; intros a [arg Hin].
  - destruct Hin as [Hin|Hin]; by apply elem_of_nil in Hin.
  - cbn [get_all_arguments].
    destruct (is_one_of opt ["-h"; "--help"]) eqn:Hhelp; [done|].
    assert (∃ arg, ("-h", arg) ∈ opts ∨ ("--help", arg) ∈ opts) as Hrest.
    { exists arg. destruct Hin as [Hin|Hin]; apply elem_of_cons in Hin as [Heq|Hin];
        try (injection Heq as <- <-; done); auto. }
    repeat (match goal with |- (if ?b then _ else _) = _ => destruct b end);
      by apply IH.
Qed.

(** X19. Help wins over everything the parser accepts: when the
    command line parses and [-h] or [--help] is among its options,
    [main] prints the usage text and ends with exit code 0, whether
    or not the required options are there. *)
Theorem main_help_exits_zero argv opts args :
  getopt argv "ht:c:u:o:s:cfg:"
    ["help"; "target="; "cluster="; "user="; "output="; "https="; "config="]
  = Parsed (opts, args) →
  (∃ arg, ("-h", arg) ∈ opts ∨ ("--help", arg) ∈ opts) →
  main argv = {| printed := [help_text]; logged := []; outcome := SystemExit 0 |}.
Proof.
  intros Hget Hhelp. unfold main. rewrite Hget.
  by rewrite (get_all_arguments_help _ _ Hhelp).
Qed.

Lemma get_all_arguments_app opts1 opts2 : ∀ a a',
  get_all_arguments (opts1 ++ opts2) a = Some a' →
  ∃ a1, get_all_arguments opts1 a = Some a1 ∧ get_all_arguments opts2 a1 = Some a'.
Proof.
  induction opts1 as [|[opt arg] opts1 IH]; intros a a' H; [by exists a|].
  cbn [app get_all_arguments] in *.
  repeat (destruct (is_one_of opt _); [by apply IH || done|]). by apply IH.
Qed.

Lemma get_all_arguments_no_https opts : ∀ a a',
  Forall (λ p, is_one_of p.1 ["-s"; "--https"] = false) opts →
  get_all_arguments opts a = Some a' → use_https a' = use_https a.
Proof.
  induction opts as [|[opt arg] opts IH]; intros a a' Hno H.
  - by injection H as <-.
  - apply Forall_cons in Hno as [Hopt Hno]. cbn [get_all_arguments] in H.
    change (is_one_of opt ["-s"; "--https"] = false) in Hopt. rewrite Hopt in H.
    repeat (destruct (is_one_of opt _); [by rewrite (IH _ _ Hno H) || done|]).
    by apply IH.
Qed.

(** X20. HTTPS is on exactly when the value of the last [-s] or
    [--https] option is the string [True], letter for letter: any
    other value, [true] included, turns it off, and earlier
    occurrences do not count. *)
Theorem main_https_last_value argv opts1 name value opts2 args a :
  getopt argv "ht:c:u:o:s:cfg:"
    ["help"; "target="; "cluster="; "user="; "output="; "https="; "config="]
  = Parsed (opts1 ++ (name, value) :: opts2, args) →
  name = "-s" ∨ name = "--https" →
  Forall (λ p, is_one_of p.1 ["-s"; "--https"] = false) opts2 →
  outcome (main argv) = Return a →
  use_https a = String.eqb value "True".
Proof.
  intros Hget Hname Hlast Hret. unfold main in Hret. rewrite Hget in Hret.
  destruct (get_all_arguments _ _) as [a0|] eqn:Hall; [|done].
  assert (a0 = a) as ->.
  { destruct (_ || _) in Hret; [done|]. by injection Hret. }
  apply get_all_arguments_app in Hall as (a1 & _ & Hall).
  cbn [get_all_arguments] in Hall.
  assert (get_all_arguments opts2
            {| target := target a1; cluster := cluster a1; user := user a1;
               fnout := fnout a1; use_https := String.eqb value "True";
               config := config a1 |} = Some a) as Hrest.
  { by destruct Hname as [-> | ->]. }
  by rewrite (get_all_arguments_no_https _ _ _ Hlast Hrest).
Qed.
End command_line.

(** * Construction *)

Section construction.
Implicit Types (self : AmbariAudit).

Lemma append_empty_r (s : string) : s +:+ "" = s.
Proof.
  induction s as [|c s IH]; [done|].
  change (String c (s +:+ "") = String c s). by rewrite IH.
Qed.

Lemma append_assoc (s t u : string) : (s +:+ t) +:+ u = s +:+ (t +:+ u).
Proof.
  induction s as [|c s IH]; [done|].
  change (String c ((s +:+ t) +:+ u) = String c (s +:+ (t +:+ u))). by rewrite IH.
Qed.

Lemma retrieve_config_versions_requested self :
  requested (_retrieve_config_versions self).2
  = requested self ++ [listing_request self].
Proof.
  unfold _retrieve_config_versions. do 2 run.
  destruct (list_response (session self)) as [r|err]; [|by run].
  run. unfold json. destruct (body r) as [|[[|item items]|]]; try (by repeat run).
  run. destruct (version_sorter _ _) as [vs|err]; by repeat run.
Qed.

(** X21. The object built by [__init__] has the cluster URL
    [{scheme}://{host}/api/v1/clusters/{cluster}], which is the API
    URL followed by [/clusters/{cluster}], with scheme [https] or
    [http] as asked; and the version listing, however it is answered,
    is requested at that URL followed by [/configurations] with the
    one query parameter [type] set to the configuration type given to
    [__init__], as the first and only request. *)
Theorem init_listing_url (host cluster_name user pw : string) (use_https : bool)
    (config : string) (srv : Session) :
  let self := __init__ host cluster_name user pw use_https config srv in
  cluster_url self
  = (if use_https then "https" else "http") +:+ "://" +:+ host
      +:+ "/api/v1/clusters/" +:+ cluster_name ∧
  cluster_url self = make_api_url use_https host +:+ "/clusters/" +:+ cluster_name ∧
  requested (_retrieve_config_versions self).2
  = [GET ((if use_https then "https" else "http") +:+ "://" +:+ host
            +:+ "/api/v1/clusters/" +:+ cluster_name +:+ "/configurations")
         [("type", config)]].
Proof.
  assert (cluster_url (__init__ host cluster_name user pw use_https config srv)
          = (if use_https then "https" else "http") +:+ "://" +:+ host
              +:+ "/api/v1/clusters/" +:+ cluster_name) as Hurl.
  { destruct use_https; cbn; by rewrite append_empty_r. }
  cbn zeta. split_and!.
  - done.
  - destruct use_https; cbn; by rewrite append_empty_r, !append_assoc.
  - rewrite retrieve_config_versions_requested. unfold listing_request.
    rewrite Hurl. cbn [requested config_id __init__ init app].
    by rewrite !append_assoc.
Qed.
End construction.

(** * The further statements at concrete inputs *)

Lemma listed_fetchable : Forall (fetchable (session listed)) (config_versions listed).
Proof.
  repeat constructor.
  - exists (SStr "u1"), {| status_code := 200;
                           body := Object (Some [snap 1 [("a","1");("b","2")]]) |}.
    split; [reflexivity|]. split; [reflexivity|]. intros _. eexists _, _. reflexivity.
  - exists (SStr "u2"), {| status_code := 500; body := Malformed |}.
    split; [reflexivity|]. split; [reflexivity|]. cbn. intros H. discriminate H.
  - exists (SStr "u3"), {| status_code := 200;
                           body := Object (Some [snap 3 [("a","5");("c","3")]]) |}.
    split; [reflexivity|]. split; [reflexivity|]. intros _. eexists _, _. reflexivity.
Qed.

Lemma single_snapshot_all_added_witness :
  configs one_snapshot = [snap 1 [("a","1")]] ∧
  audit_log (_config_diff one_snapshot)
  = (λ kv, ADDED (SInt 1) "hdfs-site" kv.1 kv.2)
      <$> map_to_list (properties (snap 1 [("a","1")])) ∧
  length (audit_log (_config_diff one_snapshot)) = size (properties (snap 1 [("a","1")])).
Proof.
  split; [reflexivity|].
  apply (single_snapshot_all_added one_snapshot (snap 1 [("a","1")])). reflexivity.
Defined.

Lemma repeated_snapshot_is_silent_witness :
  last (configs demo) = Some (snap 2 [("a","5");("c","3")]) ∧
  properties (snap 7 [("a","5");("c","3")]) = properties (snap 2 [("a","5");("c","3")]) ∧
  audit_log (_config_diff
               (set_configs (configs demo ++ [snap 7 [("a","5");("c","3")]]) demo))
  = audit_log (_config_diff (set_configs (configs demo) demo)).
Proof.
  split; [reflexivity|]. split; [reflexivity|].
  apply (repeated_snapshot_is_silent demo (configs demo)
           (snap 2 [("a","5");("c","3")]) (snap 7 [("a","5");("c","3")]));
    reflexivity.
Defined.

Lemma one_event_per_version_and_key_witness :
  NoDup (version <$> configs demo) ∧
  NoDup ((λ e, (e !! "version", e !! "key")) <$> audit_log (_config_diff demo)).
Proof.
  assert (NoDup (version <$> configs demo)) as Hnd.
  { apply (bool_decide_unpack _). vm_compute. reflexivity. }
  split; [exact Hnd|]. exact (one_event_per_version_and_key demo Hnd).
Defined.

Lemma finalize_writes_rendered_lines_witness :
  mapM (λ e, _get_audit_log_string (PyDict e)) (audit_log (_config_diff one_snapshot))
  = Ok ["hdfs-site: version 1 - ADDED - a - 1"] ∧
  mapM (λ e, _get_audit_log_string (PyDict e)) (audit_log (_config_diff read_only))
  = Ok ["hdfs-site: version 1 - ADDED - a - 1"] ∧
  _finalize "" (_config_diff one_snapshot)
  = (Ok (), set_stdout (stdout (_config_diff one_snapshot)
                          ++ ["hdfs-site: version 1 - ADDED - a - 1"])
              (_config_diff one_snapshot)) ∧
  _finalize "audit.log" (_config_diff one_snapshot)
  = (Ok (), set_files (<[ "audit.log" := ["hdfs-site: version 1 - ADDED - a - 1"] ]>
                         (files (_config_diff one_snapshot)))
              (_config_diff one_snapshot)) ∧
  _finalize "audit.log" (_config_diff read_only)
  = (Raise IOError, _config_diff read_only).
Proof.
  assert (mapM (λ e, _get_audit_log_string (PyDict e))
               (audit_log (_config_diff one_snapshot))
          = Ok ["hdfs-site: version 1 - ADDED - a - 1"]) as Hm by (vm_compute; reflexivity).
  assert (mapM (λ e, _get_audit_log_string (PyDict e))
               (audit_log (_config_diff read_only))
          = Ok ["hdfs-site: version 1 - ADDED - a - 1"]) as Hm' by (vm_compute; reflexivity).
  assert ("audit.log" ≠ "") as Hne by discriminate.
  split; [exact Hm|]. split; [exact Hm'|]. split; [|split].
  - exact (proj1 (finalize_writes_rendered_lines (_config_diff one_snapshot) "" _ Hm)
             eq_refl).
  - exact (proj1 (proj2 (finalize_writes_rendered_lines
                           (_config_diff one_snapshot) "audit.log" _ Hm))
             Hne eq_refl).
  - exact (proj2 (proj2 (finalize_writes_rendered_lines
                           (_config_diff read_only) "audit.log" _ Hm'))
             Hne IOError eq_refl).
Defined.

Lemma encodable_log_is_written_witness :
  is_ascii (config_id demo) = true ∧
  Forall encodable_snapshot (configs demo) ∧
  ∃ lines,
    mapM (λ e, _get_audit_log_string (PyDict e)) (audit_log (_config_diff demo))
    = Ok lines ∧
    length lines = length (audit_log (_config_diff demo)) ∧
    (_finalize "audit.log" (_config_diff demo)).1 = Ok ().
Proof.
  assert (Forall encodable_snapshot (configs demo)) as Ecs.
  { apply Forall_cons_2; [|apply Forall_cons_2; [|apply Forall_nil_2]];
      (split; [reflexivity|]); apply map_Forall_to_list; vm_compute;
      repeat constructor. }
  split; [reflexivity|]. split; [exact Ecs|].
  exact (encodable_log_is_written demo "audit.log" eq_refl Ecs (or_intror eq_refl)).
Defined.

Lemma render_missing_field_witness :
  no_version_event ≠ ∅ ∧
  _get_audit_log_string (PyDict no_version_event) = Raise (KeyError "version").
Proof.
  assert (no_version_event ≠ ∅) as Hne.
  { intros H. apply (f_equal (λ m, m !! "action")) in H. vm_compute in H.
    discriminate H. }
  split; [exact Hne|].
  apply (render_missing_field no_version_event ["action"; "type"] ["key"; "value"]
           "version" Hne).
  - reflexivity.
  - repeat constructor; eexists; reflexivity.
  - reflexivity.
Defined.

Lemma retrieve_configs_twice_duplicates_witness :
  ∃ self1 self2,
    _retrieve_configs listed = (Ok (), self1) ∧
    _retrieve_configs self1 = (Ok (), self2) ∧
    configs self2
    = [snap 1 [("a","1");("b","2")]; snap 3 [("a","5");("c","3")];
       snap 1 [("a","1");("b","2")]; snap 3 [("a","5");("c","3")]] ∧
    requested self2
    = [GET "u1" []; GET "u2" []; GET "u3" []; GET "u1" []; GET "u2" []; GET "u3" []].
Proof. exact (retrieve_configs_twice_duplicates listed listed_fetchable). Defined.

Lemma retrieve_configs_aborts_on_bad_body_witness :
  _retrieve_configs listed_bad_body
  = (Raise ValueError,
     set_configs [snap 1 [("a","1");("b","2")]]
       (set_requested [GET "u1" []; GET "u2" []] listed_bad_body)).
Proof.
  apply (retrieve_configs_aborts_on_bad_body listed_bad_body
           [desc 1 "u1"] (desc 2 "u2") [desc 3 "u3"] (SStr "u2")
           {| status_code := 200; body := Malformed |} ValueError).
  - reflexivity.
  - repeat constructor.
    exists (SStr "u1"), {| status_code := 200;
                           body := Object (Some [snap 1 [("a","1");("b","2")]]) |}.
    split; [reflexivity|]. split; [reflexivity|]. intros _. eexists _, _. reflexivity.
  - reflexivity.
  - reflexivity.
  - reflexivity.
  - left. split; reflexivity.
Defined.

Lemma retrieve_configs_aborts_on_missing_href_witness :
  _retrieve_configs listed_no_href
  = (Raise (KeyError "href"),
     set_configs [snap 1 [("a","1");("b","2")]] (set_requested [GET "u1" []] listed_no_href)).
Proof.
  apply (retrieve_configs_aborts_on_missing_href listed_no_href
           [desc 1 "u1"] {[ "version" := SInt 2 ]} [desc 3 "u3"]).
  - reflexivity.
  - repeat constructor.
    exists (SStr "u1"), {| status_code := 200;
                           body := Object (Some [snap 1 [("a","1");("b","2")]]) |}.
    split; [reflexivity|]. split; [reflexivity|]. intros _. eexists _, _. reflexivity.
  - reflexivity.
Defined.

Lemma version_sorter_idempotent_witness :
  version_sorter "version" [desc 1 "u1"; desc 1 "u0"; desc 2 "u2"]
  = Ok [desc 1 "u1"; desc 1 "u0"; desc 2 "u2"] ∧
  version_sorter "version" [desc 1 "u1"; desc 2 "u2"; desc 3 "u3"]
  = Ok [desc 1 "u1"; desc 2 "u2"; desc 3 "u3"].
Proof.
  split.
  - apply (proj1 (version_sorter_idempotent "version"
                    [desc 1 "u1"; desc 1 "u0"; desc 2 "u2"])).
    + repeat constructor; eexists; reflexivity.
    + repeat constructor.
  - apply (proj2 (version_sorter_idempotent "version"
                    [desc 3 "u3"; desc 1 "u1"; desc 2 "u2"])).
    reflexivity.
Defined.

Lemma retrieve_config_versions_contract_witness :
  ∃ vs, _retrieve_config_versions (init "http://h" srv "hdfs-site")
        = (Ok (), set_config_versions vs
                    (set_requested [GET "http://h/configurations" [("type", "hdfs-site")]]
                       (init "http://h" srv "hdfs-site"))) ∧
        vs ≡ₚ [desc 3 "u3"; desc 1 "u1"; desc 2 "u2"] ∧
        StronglySorted (key_le "version") vs.
Proof.
  apply (proj1 (retrieve_config_versions_contract (init "http://h" srv "hdfs-site")
                  {| status_code := 200;
                     body := Object (Some [desc 3 "u3"; desc 1 "u1"; desc 2 "u2"]) |}
                  (desc 3 "u3") [desc 1 "u1"; desc 2 "u2"] eq_refl eq_refl)).
  repeat constructor; eexists; reflexivity.
Defined.

Lemma execute_reports_fetched_snapshots_witness :
  execute "" (init "http://h" srv "hdfs-site") = (Ok (), fetched_run) ∧
  ∃ r lines,
    list_response srv [("type", "hdfs-site")] = Ok r ∧
    match body r with
    | Malformed => False
    | Object (Some (item :: items)) =>
        version_sorter "version" (item :: items) = Ok (config_versions fetched_run)
    | Object _ => config_versions fetched_run = []
    end ∧
    requested fetched_run
    = [] ++ [GET "http://h/configurations" [("type", "hdfs-site")]]
         ++ omap href_of (config_versions fetched_run) ∧
    configs fetched_run = [] ++ omap (fetched srv) (config_versions fetched_run) ∧
    audit_log fetched_run = concat (groups "hdfs-site" ∅ (configs fetched_run)) ∧
    mapM (λ e, _get_audit_log_string (PyDict e)) (audit_log fetched_run) = Ok lines ∧
    stdout fetched_run = [] ++ lines ∧ files fetched_run = ∅.
Proof.
  assert (execute "" (init "http://h" srv "hdfs-site") = (Ok (), fetched_run)) as H
    by (vm_compute; reflexivity).
  split; [exact H|].
  exact (execute_reports_fetched_snapshots (init "http://h" srv "hdfs-site") ""
           fetched_run H).
Defined.

Lemma execute_without_versions_witness :
  ∃ self',
    execute "audit.log" not_found = (Ok (), self') ∧
    requested self'
    = [GET "http://h/api/v1/clusters/c/configurations" [("type", "hdfs-site")]] ∧
    configs self' = [] ∧ audit_log self' = [] ∧ stdout self' = [] ∧
    files self' = {[ "audit.log" := [] ]}.
Proof.
  exact (execute_without_versions not_found
           {| status_code := 404; body := Object None |} "audit.log"
           eq_refl eq_refl eq_refl (or_introl eq_refl) (or_intror eq_refl)).
Defined.

Lemma main_needs_long_config_witness :
  ∃ code,
    outcome (main ["-t"; "host:8080"; "-c"; "prod"; "-u"; "admin"; "-cfg"; "hdfs-site"])
    = SystemExit code.
Proof.
  apply (main_needs_long_config
           ["-t"; "host:8080"; "-c"; "prod"; "-u"; "admin"; "-cfg"; "hdfs-site"]).
  repeat constructor.
Defined.

Lemma main_help_exits_zero_witness :
  main ["-t"; "host"; "--help"]
  = {| printed := [help_text]; logged := []; outcome := SystemExit 0 |}.
Proof.
  apply (main_help_exits_zero ["-t"; "host"; "--help"]
           [("-t", "host"); ("--help", "")] []).
  - reflexivity.
  - exists "". right. apply list_elem_of_In. right. left. reflexivity.
Defined.

Lemma main_https_last_value_witness :
  use_https {| target := "h"; cluster := "c"; user := "u"; fnout := "";
               use_https := false; config := "x" |}
  = String.eqb "true" "True".
Proof.
  apply (main_https_last_value
           ["-t"; "h"; "-c"; "c"; "-u"; "u"; "--config"; "x"; "-s"; "True";
            "--https"; "true"]
           [("-t", "h"); ("-c", "c"); ("-u", "u"); ("--config", "x"); ("-s", "True")]
           "--https" "true" [] []).
  - reflexivity.
  - right. reflexivity.
  - constructor.
  - reflexivity.
Defined.

Example short_cfg_is_read_as_cluster :
  getopt ["-cfg"; "hdfs-site"] "ht:c:u:o:s:cfg:"
    ["help"; "target="; "cluster="; "user="; "output="; "https="; "config="]
  = Parsed ([("-c", "fg")], ["hdfs-site"]).
Proof. reflexivity. Qed.
